(** * transfer_Li: lattice face resolution and insertion-site selection

    A shallow embedding of [src/python/transfer_Li.py]:
    - [check_hex_lattice] and [hex_verts2faces] (the lattice face resolver);
    - the top-level selection of the best insertion point (the selector).

    Numbers.  The script computes with NumPy floating point arrays.  Every
    finite binary64 value is a rational number and NumPy's comparisons,
    minimum, maximum and sort on finite values agree with the order of the
    rationals, so coordinates, lengths and distances are modelled as [Q]
    and the arithmetic ([+], [*], [%], rounding to decimals) is the exact
    one; rounding error of the individual float operations is not
    modelled.  Equality of numbers is [Qeq] ([==]), the value equality that
    NumPy's [==] and [isin] test, never the structural equality of
    fractions.

    Errors.  Every failure of the script is a Python exception; the model
    returns it as a value of [error] in the [result] monad. *)

From Stdlib Require Import String Ascii DecimalString DecimalNat.
From Stdlib Require Import QArith Qabs Qround Qpower ZArith List Bool Lia.
From Stdlib Require Import Sorted Permutation.
Import ListNotations.

Open Scope Q_scope.

(** ** Exceptions and the error monad *)

(** The exceptions the script can raise.  All but the last three are the
    [ValueError]s the script raises itself, told apart by their message;
    the constructor arguments are the values formatted into the message. *)
Inductive error : Type :=
| NotFlat                                  (* "The hexagonal lattice must lie flat in xy plane" *)
| BadFlatside (flatside : string)          (* "flatside must be either 'x' or 'y', but you gave {}" *)
| NotPeriodic (direction : string)         (* "... does not continue properly across periodic boundaries in {} direction" *)
| FaceCount (n_faces n_verts : nat)        (* "The number of hexagon faces ({}) is not half the number of vertices ({})" *)
| NoNeighbors (r_cut : Q)                  (* "Couldn't find neighbor atoms for any hexagon center ..." *)
| AllTooClose (r_min : Q)                  (* "... All hexagon centers have too close neighbor atoms ..." *)
| NoSuitable                               (* "Couldn't find a suitable hexagon center" *)
| IndexError                               (* indexing past the end of an array *)
| ZeroSizeReduction                        (* np.min / np.argmax of an empty array *)
| BadPrecision.                            (* int() of an infinite or NaN float *)

Inductive result (A : Type) : Type :=
| Ok (a : A)
| Raise (e : error).

Arguments Ok {A} a.
Arguments Raise {A} e.

Definition bind {A B : Type} (r : result A) (k : A -> result B) : result B :=
  match r with
  | Ok a => k a
  | Raise e => Raise e
  end.

Notation "x <- r ;; k" := (bind r (fun x => k))
  (at level 61, r at next level, right associativity).
Notation "'check!' b 'else' e ;; k" := (if b then k else Raise e)
  (at level 61, b at next level, e at next level, right associativity).

Fixpoint mapM {A B : Type} (f : A -> result B) (l : list A) : result (list B) :=
  match l with
  | [] => Ok []
  | a :: l' => b <- f a ;; bs <- mapM f l' ;; Ok (b :: bs)
  end.

(** ** The NumPy operations the script uses *)

Module Np.

(** [np.isclose(a, b, rtol=0, atol=atol)]: [|a - b| <= atol].  This is
    the test of every NumPy version for a tolerance that is not negative;
    for a negative tolerance newer versions also accept equal numbers, and
    the statements below that depend on it assume [0 <= atol]. *)
Definition isclose (a b atol : Q) : bool := Qle_bool (Qabs (a - b)) atol.

(** [np.allclose(xs, b, rtol=0, atol=atol)]. *)
Definition allclose (xs : list Q) (b atol : Q) : bool :=
  forallb (fun a => isclose a b atol) xs.

(** [a % m] on floats: the remainder has the sign of the divisor, and is
    NaN (here [None]) when the divisor is zero. *)
Definition remainder (a m : Q) : option Q :=
  if Qeq_bool m 0 then None else Some (a - inject_Z (Qfloor (a / m)) * m).

(** [np.isclose(a % m, 0, rtol=0, atol=atol)]; NaN is close to nothing. *)
Definition remainder_isclose0 (a m atol : Q) : bool :=
  match remainder a m with
  | Some r => isclose r 0 atol
  | None => false
  end.

(** [np.rint]: round to the nearest integer, halves to the even one. *)
Definition rint (q : Q) : Z :=
  let f := Qfloor q in
  match Qcompare (q - inject_Z f) (1 # 2) with
  | Lt => f
  | Gt => (f + 1)%Z
  | Eq => if Z.even f then f else (f + 1)%Z
  end.

Definition pow10 (p : Z) : Q := Qpower 10 p.

(** [np.round(x, decimals)]: scale by [10^decimals], [rint], scale back,
    in exact arithmetic.  The script rounds single precision arrays, so near
    a half-way point its result can be the neighboring decimal.  The general
    statements below use only that the rounding is a function of the
    number; the concrete lattices stay away from half-way points. *)
Definition round (x : Q) (decimals : Z) : Q :=
  if (0 <=? decimals)%Z
  then inject_Z (rint (x * pow10 decimals)) / pow10 decimals
  else inject_Z (rint (x / pow10 (- decimals))) * pow10 (- decimals).

(** [ceil(-log10(tol))] for [tol > 0], in exact arithmetic the least
    integer [p] with [10^(-p) <= tol]; it is searched upwards from a lower
    bound.  The script computes the logarithm in double precision, which
    gives one less for a tolerance just below a power of ten.  The general
    statements below do not depend on the value of the precision; the
    concrete lattices use the tolerance [1/1000], with precision 3 either
    way. *)
Fixpoint ceil_neg_log10_from (fuel : nat) (p : Z) (tol : Q) : Z :=
  match fuel with
  | O => p
  | S fuel' =>
      if Qle_bool (pow10 (- p)) tol then p
      else ceil_neg_log10_from fuel' (p + 1) tol
  end.

Definition bits (p : positive) : nat := Pos.size_nat p.

(** [int(np.ceil(-np.log10(tol)))].  [log10] of zero is [-inf] and of a
    negative number NaN, and [int] of either raises. *)
Definition ceil_neg_log10 (tol : Q) : result Z :=
  match Qnum tol with
  | Zpos n =>
      Ok (ceil_neg_log10_from (bits n + bits (Qden tol))
                              (- Z.of_nat (bits n)) tol)
  | _ => Raise BadPrecision
  end.

(** [np.isin(xs, ys, invert=True)]. *)
Definition isin_invert (xs ys : list Q) : list bool :=
  map (fun x => negb (existsb (Qeq_bool x) ys)) xs.

(** Boolean mask indexing [a[mask]]. *)
Fixpoint compress {A : Type} (mask : list bool) (a : list A) : list A :=
  match mask, a with
  | b :: mask', x :: a' => if b then x :: compress mask' a' else compress mask' a'
  | _, _ => []
  end.

(** [np.any(m)] of a matrix, [np.any(m, axis=1)], [np.all(v)]. *)
Definition any (m : list (list bool)) : bool := existsb (existsb id) m.
Definition any_axis1 (m : list (list bool)) : list bool := map (existsb id) m.
Definition all (v : list bool) : bool := forallb id v.

(** [np.sum(m, axis=1)] of a boolean matrix. *)
Definition sum_axis1 (m : list (list bool)) : list nat :=
  map (fun row => length (filter id row)) m.

(** [np.flatnonzero(v)] of a boolean vector: the indices of its true
    entries, ascending. *)
Fixpoint flatnonzero_from (i : nat) (v : list bool) : list nat :=
  match v with
  | [] => []
  | b :: v' => if b then i :: flatnonzero_from (S i) v' else flatnonzero_from (S i) v'
  end.
Definition flatnonzero (v : list bool) : list nat := flatnonzero_from 0 v.

(** [np.setdiff1d(ar1, ar2, assume_unique=True)]: the entries of [ar1]
    that are not in [ar2], in the order of [ar1]. *)
Definition setdiff1d (ar1 ar2 : list nat) : list nat :=
  filter (fun i => negb (existsb (Nat.eqb i) ar2)) ar1.

(** [np.min] of an integer array; it raises on an empty one. *)
Definition min_nat (l : list nat) : result nat :=
  match l with
  | [] => Raise ZeroSizeReduction
  | x :: l' => Ok (fold_left Nat.min l' x)
  end.

(** [np.min] of a float array; it raises on an empty one. *)
Definition Qmin_b (a b : Q) : Q := if Qle_bool a b then a else b.
Definition min (l : list Q) : result Q :=
  match l with
  | [] => Raise ZeroSizeReduction
  | x :: l' => Ok (fold_left Qmin_b l' x)
  end.

(** [np.argmax]: the index of the first occurrence of the maximum.
    [argmax_from i best ibest l] scans [l], whose head has index [i]. *)
Fixpoint argmax_from (i : nat) (best : Q) (ibest : nat) (l : list Q) : nat :=
  match l with
  | [] => ibest
  | x :: l' =>
      if Qle_bool x best then argmax_from (S i) best ibest l'
      else argmax_from (S i) x i l'
  end.
Definition argmax (l : list Q) : result nat :=
  match l with
  | [] => Raise ZeroSizeReduction
  | x :: l' => Ok (argmax_from 1 x 0 l')
  end.

(** Integer indexing [a[i]]; it raises past the end. *)
Definition index {A : Type} (a : list A) (i : nat) : result A :=
  match nth_error a i with
  | Some x => Ok x
  | None => Raise IndexError
  end.

(** Stable sort of the indices [0 .. n-1] by a key comparison (the sort
    behind [np.lexsort]): insertion from the right keeps equal keys in
    index order. *)
Fixpoint insert_ix (leb : nat -> nat -> bool) (i : nat) (l : list nat) : list nat :=
  match l with
  | [] => [i]
  | j :: l' => if leb i j then i :: l else j :: insert_ix leb i l'
  end.
Definition argsort (leb : nat -> nat -> bool) (n : nat) : list nat :=
  fold_right (insert_ix leb) [] (seq 0 n).

End Np.

(** ** Positions and boxes *)

(** A row of an [(n, 3)] position array. *)
Record Pos : Type := mkPos { px : Q; py : Q; pz : Q }.

(** The unit cell [[lx, ly, lz, alpha, beta, gamma]]. *)
Record Box : Type := mkBox
  { lx : Q; ly : Q; lz : Q; alpha : Q; beta : Q; gamma : Q }.

(** [box[i]] for the two in-plane indices the script uses. *)
Definition box_ix (box : Box) (i : nat) : Q :=
  match i with
  | 0%nat => lx box
  | 1%nat => ly box
  | 2%nat => lz box
  | 3%nat => alpha box
  | 4%nat => beta box
  | _ => gamma box
  end.

(** [np.sqrt(3)]: the binary64 number nearest to the square root of 3,
    [0x1.bb67ae8584caap+0]. *)
Definition sqrt3 : Q := 3900231685776981 # 2251799813685248.

(** [faces[:, 0] += r0] and [faces[:, 1] += r0], [hex_centers[:, 2] += z]. *)
Definition add_x (r : Q) (p : Pos) : Pos := mkPos (px p + r) (py p) (pz p).
Definition add_y (r : Q) (p : Pos) : Pos := mkPos (px p) (py p + r) (pz p).
Definition add_z (r : Q) (p : Pos) : Pos := mkPos (px p) (py p) (pz p + r).

(** [np.round(a, precision, out=a)] on a position array. *)
Definition round_pos (precision : Z) (p : Pos) : Pos :=
  mkPos (Np.round (px p) precision) (Np.round (py p) precision)
        (Np.round (pz p) precision).

(** The order of [np.lexsort(faces[:, ::-1].T)]: the last key of
    [lexsort] is the primary one, so x is primary, y secondary and z
    tertiary. *)
Definition pos_leb (p q : Pos) : bool :=
  match Qcompare (px p) (px q) with
  | Lt => true
  | Gt => false
  | Eq =>
      match Qcompare (py p) (py q) with
      | Lt => true
      | Gt => false
      | Eq => Qle_bool (pz p) (pz q)
      end
  end.

Definition origin : Pos := mkPos 0 0 0.

(** [np.lexsort(faces[:, ::-1].T)]: the sorting permutation. *)
Definition lexsort (faces : list Pos) : list nat :=
  Np.argsort (fun i j => pos_leb (nth i faces origin) (nth j faces origin))
             (length faces).

(** Integer-array indexing [faces[ix_sort]]. *)
Definition take (faces : list Pos) (ixs : list nat) : list Pos :=
  map (fun i => nth i faces origin) ixs.

(** Modelled from the spec: [MDAnalysis.lib.distances.apply_PBC] is a
    third-party function that is not part of the script; the spec describes
    it as wrapping every position into the primary unit cell.  [wrap1]
    wraps one coordinate into [[0, l)].  It is used for concrete lattices
    only; the development itself is parametric in the wrapping. *)
Definition wrap1 (l x : Q) : Q :=
  if Qeq_bool l 0 then x else x - inject_Z (Qfloor (x / l)) * l.

(** Modelled from the spec: the wrapping of a position into the primary
    cell of an orthorhombic box, coordinate by coordinate. *)
Definition wrap_ortho (box : Box) (p : Pos) : Pos :=
  mkPos (wrap1 (lx box) (px p)) (wrap1 (ly box) (py p)) (wrap1 (lz box) (pz p)).

(** ** The lattice face resolver *)

Section Resolver.

(** [wrap box p] is the image of position [p] in the primary unit cell of
    [box]: [mdadist.apply_PBC] maps it over the rows of a position array. *)
Variable wrap : Box -> Pos -> Pos.

Definition apply_PBC (verts : list Pos) (box : Box) : list Pos :=
  map (wrap box) verts.

Definition direction (i : nat) : string :=
  match i with 0%nat => "x" | _ => "y" end%string.

(** [check_hex_lattice(verts, r0, box, flatside, tol)].  The periods
    [r0 * 3] and [r0 * sqrt3] are the exact products; the script rounds
    them to double precision. *)
Definition check_hex_lattice (verts : list Pos) (r0 : Q) (box : Box)
    (flatside : string) (tol : Q) : result unit :=
  let verts := apply_PBC verts box in
  v0 <- Np.index verts 0 ;;
  check! Np.allclose (map pz verts) (pz v0) tol else NotFlat ;;
  ixs <- (if String.eqb flatside "x" then Ok (0%nat, 1%nat)
          else if String.eqb flatside "y" then Ok (1%nat, 0%nat)
          else Raise (BadFlatside flatside)) ;;
  let '(ix0, ix1) := ixs in
  check! Np.remainder_isclose0 (box_ix box ix0) (r0 * 3) tol
    else NotPeriodic (direction ix0) ;;
  check! Np.remainder_isclose0 (box_ix box ix1) (r0 * sqrt3) tol
    else NotPeriodic (direction ix1) ;;
  Ok tt.

(** [hex_verts2faces(verts, r0, box, flatside, tol)]. *)
Definition hex_verts2faces (verts : list Pos) (r0 : Q) (box : Box)
    (flatside : string) (tol : Q) : result (list Pos) :=
  _ <- check_hex_lattice verts r0 box flatside tol ;;
  let verts := apply_PBC verts box in
  let faces := verts in
  faces <- (if String.eqb flatside "x" then Ok (map (add_x r0) faces)
            else if String.eqb flatside "y" then Ok (map (add_y r0) faces)
            else Raise (BadFlatside flatside)) ;;
  let faces := apply_PBC faces box in
  precision <- Np.ceil_neg_log10 tol ;;
  let faces := map (round_pos precision) faces in
  let verts := map (round_pos precision) verts in
  let valid :=
    if String.eqb flatside "x"
    then Np.isin_invert (map px faces) (map px verts)
    else Np.isin_invert (map py faces) (map py verts) in
  let faces := Np.compress valid faces in
  check! (2 * length faces =? length verts)%nat
    else FaceCount (length faces) (length verts) ;;
  let ix_sort := lexsort faces in
  Ok (take faces ix_sort).

End Resolver.

(** ** The insertion-site selector *)

(** The selector is the top-level code of the script between the call of
    [hex_verts2faces] and the output.  It first shifts the face centers by
    [z_shift] along the surface normal; the selection then works on the
    shifted centers, the two thresholds [sigma_Li] (r_min) and [r_cut]
    (r_max), and [dists], the matrix returned by [mdadist.distance_array]
    for the shifted centers and the electrolyte atoms: row [i] holds the
    periodic distances of center [i] to every atom. *)

(** [hex_centers[:, 2] += z_shift]. *)
Definition shift_centers (z_shift : Q) (hex_centers : list Pos) : list Pos :=
  map (add_z z_shift) hex_centers.

(** [z_pos = hex_centers[0][2]]. *)
Definition z_pos_of (hex_centers : list Pos) : result Q :=
  c <- Np.index hex_centers 0 ;; Ok (pz c).

(** [dists <= r]: the contact matrix for the cutoff [r]. *)
Definition contacts (dists : list (list Q)) (r : Q) : list (list bool) :=
  map (map (fun d => Qle_bool d r)) dists.

(** [too_close = np.any(dists <= sigma_Li, axis=1)]. *)
Definition too_close_mask (dists : list (list Q)) (sigma_Li : Q) : list bool :=
  Np.any_axis1 (contacts dists sigma_Li).

(** [n_neighbors = np.sum(cm, axis=1)]. *)
Definition count_neighbors (dists : list (list Q)) (r_cut : Q) : list nat :=
  Np.sum_axis1 (contacts dists r_cut).

(** [np.min(n_neighbors[~too_close])]. *)
Definition min_neighbors (dists : list (list Q)) (sigma_Li r_cut : Q) : result nat :=
  Np.min_nat (Np.compress (map negb (too_close_mask dists sigma_Li))
                          (count_neighbors dists r_cut)).

(** The indices of all suitable hexagon centers (the final [hex_ixs]). *)
Definition suitable_ixs (dists : list (list Q)) (sigma_Li r_cut : Q) : result (list nat) :=
  let too_close := too_close_mask dists sigma_Li in
  let n_neighbors := count_neighbors dists r_cut in
  m <- min_neighbors dists sigma_Li r_cut ;;
  let hex_ixs := Np.flatnonzero (map (fun n => n =? m)%nat n_neighbors) in
  let hex_ixs_too_close := Np.flatnonzero too_close in
  Ok (Np.setdiff1d hex_ixs hex_ixs_too_close).

(** [np.min(dists[hex_ix][cm[hex_ix]])]: the distance of the nearest
    neighbor of center [hex_ix] among its contacts. *)
Definition nearest_dist (dists : list (list Q)) (r_cut : Q) (hex_ix : nat) : result Q :=
  row <- Np.index dists hex_ix ;;
  mask <- Np.index (contacts dists r_cut) hex_ix ;;
  Np.min (Np.compress mask row).

(** What the selector hands to the output code. *)
Record Selection : Type := mkSelection
  { n_neighbors : list nat;
    hex_ixs : list nat;
    min_dists : list Q;
    hex_ix_best : nat;
    insertion_point : Pos }.

(** The selection proper, from the contact matrix to the insertion
    point; [hex_centers] are the shifted centers. *)
Definition select (hex_centers : list Pos) (dists : list (list Q))
    (sigma_Li r_cut : Q) : result Selection :=
  let cm := contacts dists r_cut in
  check! Np.any cm else NoNeighbors r_cut ;;
  let too_close := too_close_mask dists sigma_Li in
  check! negb (Np.all too_close) else AllTooClose sigma_Li ;;
  let n_neighbors := count_neighbors dists r_cut in
  hex_ixs <- suitable_ixs dists sigma_Li r_cut ;;
  check! negb (length hex_ixs =? 0)%nat else NoSuitable ;;
  min_dists <- mapM (nearest_dist dists r_cut) hex_ixs ;;
  i_best <- Np.argmax min_dists ;;
  hex_ix_best <- Np.index hex_ixs i_best ;;
  insertion_point <- Np.index hex_centers hex_ix_best ;;
  Ok (mkSelection n_neighbors hex_ixs min_dists hex_ix_best insertion_point).

(** ** Vocabulary of the statements *)

(** Center [i] is disqualified: some atom is within [sigma_Li] of it. *)
Definition disqualified (dists : list (list Q)) (sigma_Li : Q) (i : nat) : Prop :=
  exists row d, nth_error dists i = Some row /\ In d row /\ d <= sigma_Li.

(** Center [i] exists and every atom is further than [sigma_Li] from it. *)
Definition qualified (dists : list (list Q)) (sigma_Li : Q) (i : nat) : Prop :=
  exists row, nth_error dists i = Some row /\ forall d, In d row -> sigma_Li < d.

(** The contact matrix for the cutoff [r] is entirely false. *)
Definition no_contact (dists : list (list Q)) (r : Q) : Prop :=
  forall row d, In row dists -> In d row -> r < d.

(** [faces[:, 0] += r0] or [faces[:, 1] += r0], by [flatside]. *)
Definition add_flat (flatside : string) (r0 : Q) (p : Pos) : Pos :=
  if String.eqb flatside "x" then add_x r0 p else add_y r0 p.

(** The length [b] exceeds an integer multiple of the period [m] by at
    most [tol]. *)
Definition exceeds_multiple (b m tol : Q) : Prop :=
  exists k : Z, 0 <= b - inject_Z k * m /\ b - inject_Z k * m <= tol.

(** The length [b] is within [tol] of an integer multiple of [m]. *)
Definition near_multiple (b m tol : Q) : Prop :=
  exists k : Z, Qabs (b - inject_Z k * m) <= tol.

(** Index [i] may stand before index [j] in the order of a key comparison. *)
Definition ix_le (leb : nat -> nat -> bool) (i j : nat) : Prop := leb i j = true.

(** The lexicographic order on positions: x, then y, then z. *)
Definition lex_le (p q : Pos) : Prop :=
  px p < px q \/
  (px p == px q /\ (py p < py q \/ (py p == py q /\ pz p <= pz q))).

(** [count_within r row n]: exactly [n] of the distances of [row] are at
    most [r]. *)
Inductive count_within (r : Q) : list Q -> nat -> Prop :=
| count_nil : count_within r [] 0
| count_in d row n :
    d <= r -> count_within r row n -> count_within r (d :: row) (S n)
| count_out d row n :
    r < d -> count_within r row n -> count_within r (d :: row) n.

(** Center [i] has exactly [n] atoms within [r_cut]. *)
Definition neighbor_count (dists : list (list Q)) (r_cut : Q) (i n : nat) : Prop :=
  exists row, nth_error dists i = Some row /\ count_within r_cut row n.

(** Center [i] is suitable: it is not disqualified and no center that is
    not disqualified has fewer atoms within [r_cut]. *)
Definition suitable_center (dists : list (list Q)) (sigma_Li r_cut : Q) (i : nat) : Prop :=
  qualified dists sigma_Li i /\
  exists n, neighbor_count dists r_cut i n /\
    forall j n', qualified dists sigma_Li j -> neighbor_count dists r_cut j n' ->
                 (n <= n')%nat.

(** [d] is the distance of the nearest atom of center [i] within
    [r_cut]: a distance of row [i] within [r_cut] that is below every
    other such distance. *)
Definition nearest_neighbor (dists : list (list Q)) (r_cut : Q) (i : nat) (d : Q) : Prop :=
  exists row, nth_error dists i = Some row /\ In d row /\ d <= r_cut /\
    forall d', In d' row -> d' <= r_cut -> d <= d'.

(** ** Concrete lattices and distance matrices *)

Module Examples.

(** The rectangular cell of a honeycomb of side length 1 whose hexagon
    edges are parallel to x: four vertices, two hexagon centers. *)
Definition box1 : Box := mkBox 3 sqrt3 10 90 90 90.
Definition half_sqrt3 : Q := sqrt3 / 2.

Definition verts_flat : list Pos :=
  [ mkPos 0 0 1; mkPos 1 0 1;
    mkPos (3 # 2) half_sqrt3 1; mkPos (5 # 2) half_sqrt3 1 ].

(** The same lattice, with heights that differ by less than the
    tolerance [1/1000]. *)
Definition verts_rough : list Pos :=
  [ mkPos 0 0 (10005 # 10000); mkPos 1 0 (10004 # 10000);
    mkPos (3 # 2) half_sqrt3 (10005 # 10000);
    mkPos (5 # 2) half_sqrt3 (10006 # 10000) ].

Definition tol1 : Q := 1 # 1000.

(** The hexagon centers of [verts_flat] and of [verts_rough], rounded to
    three decimals and sorted. *)
Definition faces_flat : list Pos :=
  [ mkPos (500 # 1000) (866 # 1000) (1000 # 1000);
    mkPos (2000 # 1000) (0 # 1000) (1000 # 1000) ].
Definition faces_rough : list Pos :=
  [ mkPos (500 # 1000) (866 # 1000) (1001 # 1000);
    mkPos (2000 # 1000) (0 # 1000) (1000 # 1000) ].

(** Two vertices at different heights. *)
Definition verts_steep : list Pos := [ mkPos 0 0 1; mkPos 1 0 2 ].

(** A box whose x length [5.9995] is [0.0005] short of [2 * 3], and one
    whose x length [6.0005] is [0.0005] beyond it. *)
Definition box_short : Box := mkBox (59995 # 10000) sqrt3 10 90 90 90.
Definition box_long : Box := mkBox (60005 # 10000) sqrt3 10 90 90 90.

(** Two centers, one atom: center 0 has the atom within [r_cut = 5],
    center 1 has no atom within [r_cut]. *)
Definition centers2 : list Pos := [ mkPos (1 # 2) half_sqrt3 1; mkPos 2 0 1 ].
Definition dists_lonely : list (list Q) := [ [3]; [10] ].

(** Three centers, two atoms. *)
Definition centers3 : list Pos :=
  [ mkPos (1 # 2) half_sqrt3 1; mkPos 2 0 1; mkPos (7 # 2) half_sqrt3 1 ].
Definition dists3 : list (list Q) := [ [5; 9]; [7; 9]; [1; 4] ].

(** With [r_min = 2] and [r_max = 8], centers 0 and 1 have one neighbor
    each and center 2 is disqualified; center 1 has the furthest nearest
    neighbor. *)
Definition sel3 : Selection :=
  mkSelection [1; 1; 2]%nat [0; 1]%nat [5; 7] 1%nat (mkPos 2 0 1).

(** Three centers with one neighbor each within [r_max = 8]; center 2
    is disqualified for [r_min = 2]. *)
Definition dists_tie : list (list Q) := [ [5; 9]; [7; 9]; [1; 9] ].

(** Two centers with two neighbors each within [r_max = 8]; the nearest
    are at 3 and at 4. *)
Definition dists_multi : list (list Q) := [ [7; 3]; [4; 5] ].

End Examples.

(** ** The rest of the script *)

(** [faces[:, 0]] or [faces[:, 1]], the coordinate that the validity mask
    of [hex_verts2faces] compares. *)
Definition flat_coord (flatside : string) (p : Pos) : Q :=
  if String.eqb flatside "x" then px p else py p.

(** Boolean mask indexing [a[mask]] of arrays that need not have the
    same length: NumPy raises when the mask does not fit. *)
Definition mask_index {A : Type} (a : list A) (mask : list bool) : result (list A) :=
  check! (length mask =? length a)%nat else IndexError ;;
  Ok (Np.compress mask a).

(** [a[-1]]. *)
Fixpoint last_entry {A : Type} (a : list A) : result A :=
  match a with
  | [] => Raise IndexError
  | x :: a' => match a' with [] => Ok x | _ :: _ => last_entry a' end
  end.

(** [z_layer_min = bins[etrd_dist > 0][-1]]: the lower edge of the first
    bin at the negative electrode, from the two columns of the bin file. *)
Definition z_layer_min (bins etrd_dist : list Q) : result Q :=
  layer <- mask_index bins (map (fun d => negb (Qle_bool d 0)) etrd_dist) ;;
  last_entry layer.

(** The names of the input and output files. *)
Module Files.

Local Open Scope string_scope.

(** [str(i)] of an integer. *)
Definition str_int (i : Z) : string := NilZero.string_of_int (Z.to_int i).
Definition str_nat (n : nat) : string := NilEmpty.string_of_uint (Nat.to_uint n).

(** The command line arguments. *)
Record Args : Type := mkArgs { settings : string; system : string; t0 : Z }.

Definition strfile (args : Args) : string :=
  ((((settings args ++ "_out_") ++ system args) ++ "_") ++ str_int (t0 args)) ++ "ns.gro".
Definition topfile (args : Args) : string :=
  ((settings args ++ "_") ++ system args) ++ ".tpr".
Definition binfile (args : Args) : string :=
  ((settings args ++ "_") ++ system args) ++ "_density-z_number_Li_binsA.txt.gz".
Definition outfile (args : Args) : string :=
  ((settings args ++ "_") ++ system args) ++ "_transfer_Li.txt.gz".

(** ["Li" + str(atm.index + 1) + "_transferred"]. *)
Definition dir_name (index : nat) : string :=
  ("Li" ++ str_nat (index + 1)) ++ "_transferred".

Definition starts_with_sep (s : string) : bool :=
  match s with String c _ => Ascii.eqb c "/" | EmptyString => false end.
Fixpoint ends_with_sep (s : string) : bool :=
  match s with
  | EmptyString => false
  | String c EmptyString => Ascii.eqb c "/"
  | String _ s' => ends_with_sep s'
  end.

(** [os.path.join(a, b)] on a POSIX system. *)
Definition os_path_join (a b : string) : string :=
  if starts_with_sep b then b
  else if (String.eqb a "" || ends_with_sep a)%bool then a ++ b
  else (a ++ "/") ++ b.

(** The path of the structure file of the transferred atom [index]. *)
Definition outfile_gro (args : Args) (index : nat) : string :=
  os_path_join (dir_name index)
    (((((settings args ++ "_out_") ++ system args) ++ "_") ++ dir_name index) ++ ".gro").

(** The last character of a string. *)
Fixpoint last_char (s : string) : option Ascii.ascii :=
  match s with
  | EmptyString => None
  | String c EmptyString => Some c
  | String _ s' => last_char s'
  end.

(** Whether a string holds a slash. *)
Fixpoint contains_sep (s : string) : bool :=
  match s with
  | EmptyString => false
  | String c s' => (Ascii.eqb c "/" || contains_sep s')%bool
  end.

(** [strip_prefix p s] is the rest of [s] after its prefix [p]. *)
Fixpoint strip_prefix (p s : string) : option string :=
  match p, s with
  | EmptyString, _ => Some s
  | String c p', String c' s' => if Ascii.eqb c c' then strip_prefix p' s' else None
  | String _ _, EmptyString => None
  end.

End Files.

(** The transfer of the selected lithium ions, one structure file each. *)
Module Transfer.

(** An atom of the universe: [atm.index] is its place in [u.atoms]. *)
Record Atom : Type := mkAtom
  { index : nat;
    resid : Z;
    resname : string;
    name : string;
    position : Pos;
    velocity : Pos }.

(** An assignment to a field of [atoms[i]]; it raises past the end. *)
Fixpoint assign (atoms : list Atom) (i : nat) (f : Atom -> Atom) : result (list Atom) :=
  match atoms, i with
  | [], _ => Raise IndexError
  | a :: atoms', O => Ok (f a :: atoms')
  | a :: atoms', S i' => atoms'' <- assign atoms' i' f ;; Ok (a :: atoms'')
  end.

Definition with_position (p : Pos) (a : Atom) : Atom :=
  mkAtom (index a) (resid a) (resname a) (name a) p (velocity a).
Definition with_velocity (v : Pos) (a : Atom) : Atom :=
  mkAtom (index a) (resid a) (resname a) (name a) (position a) v.

(** [u_copy = u.copy(); u_copy.atoms[i].position = insertion_point;
    u_copy.atoms[i].velocity = 0]. *)
Definition moved (u : list Atom) (i : nat) (insertion_point : Pos) : result (list Atom) :=
  let u_copy := u in
  u_copy <- assign u_copy i (with_position insertion_point) ;;
  assign u_copy i (with_velocity origin).

(** What the loop changes outside the program: the names that exist in
    the working directory, the latest created first, and the structure
    files written, the latest first. *)
Record Disk : Type := mkDisk
  { entries : list string;
    written : list (string * list Atom) }.

(** How the loop ends: normally, or with the exception of an assignment,
    of [os.mkdir] or of the opening of the structure file. *)
Inductive outcome : Type :=
| Done
| Failed (e : error)
| FileExistsError (dir_name : string)
| OSError (path : string).

Section Loop.

(** [can_open entries path]: whether the writer can open [path] for
    writing when the working directory holds [entries].  The operating
    system decides this, not the script; it fails for instance when the
    directory part of [path] does not exist. *)
Variable can_open : list string -> string -> bool.

(** One turn of the loop, for the atom [atm] of the selection.
    [mdt.fh.backup] renames an existing file of the same name; it does not
    change what is written and is left out. *)
Definition transfer_atom (args : Files.Args) (u : list Atom) (insertion_point : Pos)
    (atm : Atom) (disk : Disk) : Disk * outcome :=
  match moved u (index atm) insertion_point with
  | Raise e => (disk, Failed e)
  | Ok u_copy =>
      let dir_name := Files.dir_name (index atm) in
      if existsb (String.eqb dir_name) (entries disk)
      then (disk, FileExistsError dir_name)
      else
        let disk := mkDisk (dir_name :: entries disk) (written disk) in
        let outfile_gro := Files.outfile_gro args (index atm) in
        if can_open (entries disk) outfile_gro
        then (mkDisk (entries disk) ((outfile_gro, u_copy) :: written disk), Done)
        else (disk, OSError outfile_gro)
  end.

(** [for atm in sel: ...]: the loop stops at the first exception and
    keeps what it has written. *)
Fixpoint transfer_loop (args : Files.Args) (u : list Atom) (insertion_point : Pos)
    (sel : list Atom) (disk : Disk) : Disk * outcome :=
  match sel with
  | [] => (disk, Done)
  | atm :: sel' =>
      match transfer_atom args u insertion_point atm disk with
      | (disk', Done) => transfer_loop args u insertion_point sel' disk'
      | stopped => stopped
      end
  end.

End Loop.

End Transfer.

(** A universe of three atoms, two of them lithium ions to transfer. *)
Module TransferExamples.

Definition args1 : Files.Args := Files.mkArgs "pr_nvt423_nh" "lintf2_g1_20-1_gra_q1_sc80" 1000.

Definition li0 : Transfer.Atom :=
  Transfer.mkAtom 0 1 "LI" "Li" (mkPos 1 1 30) (mkPos (1 # 10) 0 0).
Definition ntf1 : Transfer.Atom :=
  Transfer.mkAtom 1 2 "NTF2" "N" (mkPos 2 2 20) (mkPos 0 (1 # 10) 0).
Definition li2 : Transfer.Atom :=
  Transfer.mkAtom 2 3 "LI" "Li" (mkPos 3 3 31) (mkPos 0 0 (1 # 10)).

Definition u3 : list Transfer.Atom := [li0; ntf1; li2].
Definition target : Pos := mkPos 2 0 3.

Definition empty_disk : Transfer.Disk := Transfer.mkDisk [] [].
Definition used_disk : Transfer.Disk :=
  Transfer.mkDisk ["Li3_transferred"%string] [].

(** A file system in which a file can be opened exactly in the directory
    that was created last, under a name without a slash. *)
Definition open_fresh (entries : list string) (path : string) : bool :=
  match entries with
  | d :: _ =>
      match Files.strip_prefix (d ++ "/")%string path with
      | Some f => negb (Files.contains_sep f)
      | None => false
      end
  | [] => false
  end.

Definition args_nested : Files.Args := Files.mkArgs "runs/pr_nvt423_nh" "lintf2" 1000.

End TransferExamples.

(** * Properties *)

(** ** The error monad *)

Lemma bind_Ok {A B : Type} (r : result A) (k : A -> result B) (b : B) :
  bind r k = Ok b -> exists a, r = Ok a /\ k a = Ok b.
Proof. destruct r as [a|e]; simpl; [eauto | discriminate]. Qed.

Lemma mapM_Ok {A B : Type} (f : A -> result B) (l : list A) (bs : list B) :
  mapM f l = Ok bs -> Forall2 (fun a b => f a = Ok b) l bs.
Proof.
  revert bs; induction l as [|a l IH]; simpl; intros bs H.
  - injection H as <-. constructor.
  - apply bind_Ok in H as (b & Hb & H).
    apply bind_Ok in H as (bs' & Hbs & H).
    injection H as <-. constructor; auto.
Qed.

Lemma mapM_total {A B : Type} (f : A -> result B) (l : list A) :
  (forall a, In a l -> exists b, f a = Ok b) -> exists bs, mapM f l = Ok bs.
Proof.
  induction l as [|a l IH]; simpl; intros H; [eauto|].
  destruct (H a (or_introl eq_refl)) as (b & ->). simpl.
  destruct IH as (bs & ->); [auto|]. simpl. eauto.
Qed.

Lemma Forall2_nth_error {A B : Type} (R : A -> B -> Prop) l l' :
  Forall2 R l l' ->
  forall k a b, nth_error l k = Some a -> nth_error l' k = Some b -> R a b.
Proof.
  induction 1 as [|x y l l' Hxy _ IH]; intros k a b Ha Hb.
  - destruct k; discriminate.
  - destruct k as [|k]; simpl in *.
    + injection Ha as <-. injection Hb as <-. exact Hxy.
    + eauto.
Qed.

(** ** The NumPy operations *)

Module NpFacts.
Import Np.

Lemma index_Ok {A : Type} (a : list A) i x :
  index a i = Ok x <-> nth_error a i = Some x.
Proof.
  unfold index. destruct (nth_error a i); split; intros H;
    try discriminate; injection H as <-; reflexivity.
Qed.

Lemma flatnonzero_from_In k v i :
  In i (flatnonzero_from k v) <->
  exists j, i = (k + j)%nat /\ nth_error v j = Some true.
Proof.
  revert k; induction v as [|b v IH]; intros k; simpl.
  - split; [tauto | intros (j & _ & H); destruct j; discriminate].
  - assert (Hrec : In i (flatnonzero_from (S k) v) <->
                   exists j, i = (k + S j)%nat /\ nth_error v j = Some true).
    { rewrite IH. split; intros (j & -> & H); exists j; split; auto; lia. }
    destruct b; simpl; rewrite Hrec; split.
    + intros [<- | (j & -> & H)]; [exists 0%nat | exists (S j)]; split; auto; lia.
    + intros ([|j] & -> & H); [left; lia | right; eauto].
    + intros (j & -> & H). exists (S j); auto.
    + intros ([|j] & -> & H); [discriminate | eauto].
Qed.

Lemma flatnonzero_In v i :
  In i (flatnonzero v) <-> nth_error v i = Some true.
Proof.
  unfold flatnonzero. rewrite flatnonzero_from_In. split.
  - intros (j & -> & H). exact H.
  - intros H. exists i. auto.
Qed.

Lemma setdiff1d_In ar1 ar2 i :
  In i (setdiff1d ar1 ar2) <-> In i ar1 /\ ~ In i ar2.
Proof.
  unfold setdiff1d. rewrite filter_In, negb_true_iff.
  split; intros (H1 & H2); split; auto.
  - intros Hin. assert (existsb (Nat.eqb i) ar2 = true); [|congruence].
    apply existsb_exists. exists i. split; auto. apply Nat.eqb_refl.
  - destruct (existsb (Nat.eqb i) ar2) eqn:E; auto.
    apply existsb_exists in E as (j & Hj & E). apply Nat.eqb_eq in E. subst j.
    contradiction.
Qed.

Lemma compress_In {A : Type} (mask : list bool) (a : list A) x :
  In x (compress mask a) <->
  exists i, nth_error mask i = Some true /\ nth_error a i = Some x.
Proof.
  revert a; induction mask as [|b mask IH]; intros a; simpl.
  - split; [tauto | intros ([|i] & H & _); discriminate].
  - destruct a as [|y a].
    + simpl. split; [tauto | intros ([|i] & _ & H); discriminate].
    + assert (Hrec : In x (compress mask a) <->
                     exists i, nth_error (b :: mask) (S i) = Some true /\
                               nth_error (y :: a) (S i) = Some x) by apply IH.
      destruct b; simpl; rewrite Hrec; split.
      * intros [<- | (i & H)]; [exists 0%nat; auto | exists (S i); auto].
      * intros ([|i] & Hm & Ha); [left; simpl in Ha; congruence | right; eauto].
      * intros (i & H); exists (S i); auto.
      * intros ([|i] & Hm & Ha); [discriminate | eauto].
Qed.

Lemma fold_left_min_le l : forall x,
  (fold_left Nat.min l x <= x)%nat /\
  (forall y, In y l -> (fold_left Nat.min l x <= y)%nat).
Proof.
  induction l as [|z l IH]; intros x; simpl.
  - split; [lia | tauto].
  - destruct (IH (Nat.min x z)) as (H1 & H2). split; [lia|].
    intros y [<- | Hy]; [lia | auto].
Qed.

Lemma fold_left_min_In l : forall x,
  fold_left Nat.min l x = x \/ In (fold_left Nat.min l x) l.
Proof.
  induction l as [|z l IH]; intros x; simpl; [auto|].
  destruct (IH (Nat.min x z)) as [H | H]; [|auto].
  rewrite H. destruct (Nat.min_dec x z) as [E | E]; rewrite E; auto.
Qed.

Lemma min_nat_Ok l m :
  min_nat l = Ok m -> In m l /\ forall y, In y l -> (m <= y)%nat.
Proof.
  destruct l as [|x l]; simpl; [discriminate|]. intros H. injection H as <-.
  destruct (fold_left_min_le l x) as (H1 & H2).
  split.
  - destruct (fold_left_min_In l x) as [-> | H]; auto.
  - intros y [<- | Hy]; auto.
Qed.

Lemma min_nat_total l : l <> [] -> exists m, min_nat l = Ok m.
Proof. destruct l; [congruence | simpl; eauto]. Qed.

Lemma Qmin_b_le_l a b : Qmin_b a b <= a.
Proof.
  unfold Qmin_b. destruct (Qle_bool a b) eqn:E; [apply Qle_refl|].
  apply Qlt_le_weak, Qnot_le_lt. rewrite <- Qle_bool_iff. congruence.
Qed.

Lemma Qmin_b_le_r a b : Qmin_b a b <= b.
Proof.
  unfold Qmin_b. destruct (Qle_bool a b) eqn:E; [|apply Qle_refl].
  apply Qle_bool_iff, E.
Qed.

Lemma fold_left_Qmin_le l : forall x,
  fold_left Qmin_b l x <= x /\
  (forall y, In y l -> fold_left Qmin_b l x <= y).
Proof.
  induction l as [|z l IH]; intros x; simpl.
  - split; [apply Qle_refl | tauto].
  - destruct (IH (Qmin_b x z)) as (H1 & H2). split.
    + eapply Qle_trans; [exact H1 | apply Qmin_b_le_l].
    + intros y [<- | Hy]; [|auto].
      eapply Qle_trans; [exact H1 | apply Qmin_b_le_r].
Qed.

Lemma fold_left_Qmin_In l : forall x,
  fold_left Qmin_b l x = x \/ In (fold_left Qmin_b l x) l.
Proof.
  induction l as [|z l IH]; intros x; simpl; [auto|].
  destruct (IH (Qmin_b x z)) as [H | H]; [|auto].
  rewrite H. unfold Qmin_b. destruct (Qle_bool x z); auto.
Qed.

(** [np.min] returns an entry of the array that is below every entry. *)
Lemma min_Ok l d :
  min l = Ok d -> In d l /\ forall y, In y l -> d <= y.
Proof.
  destruct l as [|x l]; simpl; [discriminate|]. intros H. injection H as <-.
  destruct (fold_left_Qmin_le l x) as (H1 & H2).
  split.
  - destruct (fold_left_Qmin_In l x) as [-> | H]; auto.
  - intros y [<- | Hy]; auto.
Qed.

Lemma min_total l : l <> [] -> exists d, min l = Ok d.
Proof. destruct l; [congruence | simpl; eauto]. Qed.

End NpFacts.

Module ArgmaxFacts.
Import Np.

Lemma Qle_bool_false x y : Qle_bool x y = false -> y < x.
Proof.
  intros E. apply Qnot_le_lt. rewrite <- Qle_bool_iff. congruence.
Qed.

(** The scan keeps the index of the first occurrence of the largest
    entry seen so far. *)
Lemma argmax_from_spec l : forall pre best ibest,
  nth_error pre ibest = Some best ->
  (forall j x, nth_error pre j = Some x -> x <= best) ->
  (forall j x, (j < ibest)%nat -> nth_error pre j = Some x -> x < best) ->
  exists d, nth_error (pre ++ l) (argmax_from (length pre) best ibest l) = Some d /\
    (forall j x, nth_error (pre ++ l) j = Some x -> x <= d) /\
    (forall j x, (j < argmax_from (length pre) best ibest l)%nat ->
                 nth_error (pre ++ l) j = Some x -> x < d).
Proof.
  induction l as [|y l IH]; intros pre best ibest Hb Hle Hlt; simpl.
  - rewrite app_nil_r. eauto.
  - assert (Hlen : length (pre ++ [y]) = S (length pre))
      by (rewrite length_app; simpl; lia).
    assert (Happ : pre ++ y :: l = (pre ++ [y]) ++ l)
      by (rewrite <- app_assoc; reflexivity).
    assert (Hsplit : forall j x, nth_error (pre ++ [y]) j = Some x ->
              nth_error pre j = Some x \/ (j = length pre /\ x = y)).
    { intros j x Hj. destruct (Nat.lt_ge_cases j (length pre)) as [Hlt' | Hge].
      - left. rewrite nth_error_app1 in Hj; assumption.
      - right. rewrite nth_error_app2 in Hj by assumption.
        destruct (j - length pre)%nat as [|k] eqn:E; simpl in Hj.
        + injection Hj as <-. split; [lia | reflexivity].
        + destruct k; discriminate. }
    rewrite Happ, <- Hlen.
    destruct (Qle_bool y best) eqn:E.
    + apply IH.
      * rewrite nth_error_app1; [assumption|]. apply nth_error_Some. congruence.
      * intros j x Hj. destruct (Hsplit j x Hj) as [H | (_ & ->)]; eauto.
        apply Qle_bool_iff, E.
      * intros j x Hji Hj. destruct (Hsplit j x Hj) as [H | (-> & _)]; eauto.
        assert (ibest < length pre)%nat by (apply nth_error_Some; congruence). lia.
    + apply Qle_bool_false in E.
      apply IH.
      * rewrite nth_error_app2, Nat.sub_diag by lia. reflexivity.
      * intros j x Hj. destruct (Hsplit j x Hj) as [H | (_ & ->)].
        -- apply Qlt_le_weak. eapply Qle_lt_trans; [eapply Hle; eassumption | exact E].
        -- apply Qle_refl.
      * intros j x Hji Hj. destruct (Hsplit j x Hj) as [H | (-> & _)]; [|lia].
        eapply Qle_lt_trans; [eapply Hle; eassumption | exact E].
Qed.

(** [np.argmax] returns the first index that holds the maximum. *)
Lemma argmax_Ok l r :
  argmax l = Ok r ->
  exists d, nth_error l r = Some d /\
    (forall j x, nth_error l j = Some x -> x <= d) /\
    (forall j x, (j < r)%nat -> nth_error l j = Some x -> x < d).
Proof.
  destruct l as [|y l]; simpl; [discriminate|]. intros H. injection H as <-.
  apply (argmax_from_spec l [y] y 0%nat).
  - reflexivity.
  - intros [|[|j]] x Hj; simpl in Hj; try discriminate.
    injection Hj as <-. apply Qle_refl.
  - intros j x Hj. lia.
Qed.

Lemma argmax_total l : l <> [] -> exists r, argmax l = Ok r.
Proof. destruct l; [congruence | simpl; eauto]. Qed.

End ArgmaxFacts.

(** ** The selector *)

Module SelectorFacts.
Import Np NpFacts ArgmaxFacts.

Lemma row_contact_iff row r :
  existsb id (map (fun d => Qle_bool d r) row) = true <->
  exists d, In d row /\ d <= r.
Proof.
  rewrite existsb_exists. split.
  - intros (b & Hin & Hb). unfold id in Hb. subst b.
    apply in_map_iff in Hin as (d & Hd & Hin).
    exists d. split; [assumption | apply Qle_bool_iff, Hd].
  - intros (d & Hin & Hd). exists true. split; [|reflexivity].
    apply in_map_iff. exists d. split; [apply Qle_bool_iff, Hd | assumption].
Qed.

Lemma row_contact_false row r :
  existsb id (map (fun d => Qle_bool d r) row) = false <->
  forall d, In d row -> r < d.
Proof.
  split.
  - intros H d Hin. apply Qnot_le_lt. intros Hd.
    assert (E : existsb id (map (fun d => Qle_bool d r) row) = true)
      by (apply row_contact_iff; eauto).
    congruence.
  - intros H. destruct (existsb _ _) eqn:E; [|reflexivity].
    apply row_contact_iff in E as (d & Hin & Hd).
    exfalso. exact (Qlt_not_le _ _ (H d Hin) Hd).
Qed.

Lemma any_contacts_iff dists r :
  any (contacts dists r) = true <->
  exists row d, In row dists /\ In d row /\ d <= r.
Proof.
  unfold any, contacts. rewrite existsb_exists. split.
  - intros (brow & Hin & Hb). apply in_map_iff in Hin as (row & <- & Hin).
    apply row_contact_iff in Hb as (d & Hd). exists row, d. tauto.
  - intros (row & d & Hin & Hd). exists (map (fun d => Qle_bool d r) row).
    split; [apply in_map, Hin | apply row_contact_iff; eauto].
Qed.

Lemma too_close_nth dists s i :
  nth_error (too_close_mask dists s) i =
  option_map (fun row => existsb id (map (fun d => Qle_bool d s) row))
             (nth_error dists i).
Proof.
  unfold too_close_mask, any_axis1, contacts. rewrite !nth_error_map.
  destruct (nth_error dists i); reflexivity.
Qed.

Lemma count_nth dists r i :
  nth_error (count_neighbors dists r) i =
  option_map (fun row => length (filter id (map (fun d => Qle_bool d r) row)))
             (nth_error dists i).
Proof.
  unfold count_neighbors, sum_axis1, contacts. rewrite !nth_error_map.
  destruct (nth_error dists i); reflexivity.
Qed.

Lemma too_close_true_iff dists s i :
  nth_error (too_close_mask dists s) i = Some true <-> disqualified dists s i.
Proof.
  rewrite too_close_nth. unfold disqualified. split.
  - destruct (nth_error dists i) as [row|]; simpl; [|discriminate].
    intros H. injection H as H. apply row_contact_iff in H as (d & Hd).
    exists row, d. tauto.
  - intros (row & d & -> & Hd). simpl. f_equal. apply row_contact_iff. eauto.
Qed.

Lemma too_close_false_iff dists s i :
  nth_error (too_close_mask dists s) i = Some false <-> qualified dists s i.
Proof.
  rewrite too_close_nth. unfold qualified. split.
  - destruct (nth_error dists i) as [row|]; simpl; [|discriminate].
    intros H. injection H as H. exists row. split; [reflexivity|].
    apply row_contact_false, H.
  - intros (row & -> & H). simpl. f_equal. apply row_contact_false, H.
Qed.

Lemma all_too_close_iff dists s :
  all (too_close_mask dists s) = true <->
  forall row, In row dists -> exists d, In d row /\ d <= s.
Proof.
  unfold all, too_close_mask, any_axis1, contacts. rewrite forallb_forall. split.
  - intros H row Hin. apply row_contact_iff.
    apply (H (existsb id (map (fun d => Qle_bool d s) row))).
    apply in_map_iff. exists (map (fun d => Qle_bool d s) row).
    split; [reflexivity | apply in_map, Hin].
  - intros H b Hb. apply in_map_iff in Hb as (brow & <- & Hb).
    apply in_map_iff in Hb as (row & <- & Hin). apply row_contact_iff; auto.
Qed.

Lemma forallb_id_false v :
  forallb id v = false -> exists i, nth_error v i = Some false.
Proof.
  induction v as [|b v IH]; simpl; [discriminate|].
  destruct b; simpl.
  - intros H. destruct (IH H) as (i & Hi). exists (S i). exact Hi.
  - intros _. exists 0%nat. reflexivity.
Qed.

(** A center that exists has a neighbor count. *)
Lemma qualified_count dists s r i :
  nth_error (too_close_mask dists s) i = Some false ->
  exists n, nth_error (count_neighbors dists r) i = Some n.
Proof.
  rewrite too_close_nth, count_nth.
  destruct (nth_error dists i); simpl; [eauto | discriminate].
Qed.

Lemma count_too_close dists s r i n :
  nth_error (count_neighbors dists r) i = Some n ->
  exists b, nth_error (too_close_mask dists s) i = Some b.
Proof.
  rewrite too_close_nth, count_nth.
  destruct (nth_error dists i); simpl; [eauto | discriminate].
Qed.

(** [np.min(n_neighbors[~too_close])] is the least neighbor count of the
    centers that are not disqualified, and some such center has it. *)
Lemma min_neighbors_Ok dists s r m :
  min_neighbors dists s r = Ok m ->
  (exists i, nth_error (too_close_mask dists s) i = Some false /\
             nth_error (count_neighbors dists r) i = Some m) /\
  (forall i n, nth_error (too_close_mask dists s) i = Some false ->
               nth_error (count_neighbors dists r) i = Some n -> (m <= n)%nat).
Proof.
  unfold min_neighbors. intros H. apply min_nat_Ok in H as (Hin & Hle). split.
  - apply compress_In in Hin as (i & Hm & Hc). exists i. split; [|exact Hc].
    rewrite nth_error_map in Hm.
    destruct (nth_error (too_close_mask dists s) i) as [[|]|]; simpl in Hm;
      congruence.
  - intros i n Ht Hc. apply Hle. apply compress_In. exists i. split; [|exact Hc].
    rewrite nth_error_map, Ht. reflexivity.
Qed.

Lemma min_neighbors_total dists s r :
  all (too_close_mask dists s) = false ->
  exists m, min_neighbors dists s r = Ok m.
Proof.
  intros H. apply forallb_id_false in H as (i & Hi).
  destruct (qualified_count dists s r i Hi) as (n & Hn).
  apply min_nat_total. intros E.
  assert (Hin : In n (compress (map negb (too_close_mask dists s))
                               (count_neighbors dists r))).
  { apply compress_In. exists i. split; [|exact Hn].
    rewrite nth_error_map, Hi. reflexivity. }
  rewrite E in Hin. exact Hin.
Qed.

(** The suitable centers are those with the minimum neighbor count that
    are not disqualified. *)
Lemma suitable_ixs_Ok dists s r ixs :
  suitable_ixs dists s r = Ok ixs ->
  exists m, min_neighbors dists s r = Ok m /\
    forall i, In i ixs <->
      nth_error (count_neighbors dists r) i = Some m /\
      nth_error (too_close_mask dists s) i = Some false.
Proof.
  unfold suitable_ixs. intros H. apply bind_Ok in H as (m & Hm & H).
  injection H as <-. exists m. split; [exact Hm|]. intros i.
  rewrite setdiff1d_In, !flatnonzero_In, nth_error_map.
  split.
  - intros (Hc & Hn).
    destruct (nth_error (count_neighbors dists r) i) as [n|] eqn:En;
      simpl in Hc; [|discriminate].
    injection Hc as Hc. apply Nat.eqb_eq in Hc. subst n. split; [reflexivity|].
    destruct (count_too_close dists s r i m En) as ([|] & Hb); congruence.
  - intros (-> & Ht). simpl. rewrite Nat.eqb_refl. split; congruence.
Qed.

Lemma suitable_ixs_total dists s r :
  all (too_close_mask dists s) = false ->
  exists ixs, suitable_ixs dists s r = Ok ixs.
Proof.
  intros H. destruct (min_neighbors_total dists s r H) as (m & Hm).
  unfold suitable_ixs. rewrite Hm. simpl. eauto.
Qed.

End SelectorFacts.

Module SelectFacts.
Import Np NpFacts ArgmaxFacts SelectorFacts.

Lemma compress_map_filter {A : Type} (f : A -> bool) (a : list A) :
  compress (map f a) a = filter f a.
Proof.
  induction a as [|x a IH]; simpl; [reflexivity|].
  rewrite IH. destruct (f x); reflexivity.
Qed.

Lemma count_true_map {A : Type} (f : A -> bool) (a : list A) :
  length (filter id (map f a)) = length (filter f a).
Proof.
  induction a as [|x a IH]; simpl; [reflexivity|].
  unfold id at 1. destruct (f x); simpl; rewrite IH; reflexivity.
Qed.

(** The nearest-neighbor distance of center [i] is the least distance of
    row [i] that is within the cutoff. *)
Lemma nearest_dist_Ok dists r i d :
  nearest_dist dists r i = Ok d <->
  exists row, nth_error dists i = Some row /\
    min (filter (fun d => Qle_bool d r) row) = Ok d.
Proof.
  unfold nearest_dist, index, contacts. rewrite nth_error_map.
  destruct (nth_error dists i) as [row|]; simpl.
  - rewrite compress_map_filter. split; [eauto|].
    intros (row' & E & H). injection E as <-. exact H.
  - split; [discriminate | intros (row & E & _); discriminate].
Qed.

Lemma nearest_dist_bounds dists r i d :
  nearest_dist dists r i = Ok d ->
  exists row, nth_error dists i = Some row /\ In d row /\ d <= r /\
    forall d', In d' row -> d' <= r -> d <= d'.
Proof.
  intros H. apply nearest_dist_Ok in H as (row & Hrow & H).
  apply min_Ok in H as (Hin & Hle). apply filter_In in Hin as (Hin & Hd).
  exists row. repeat split; auto.
  - apply Qle_bool_iff, Hd.
  - intros d' Hin' Hd'. apply Hle, filter_In. split; [assumption|].
    apply Qle_bool_iff, Hd'.
Qed.

Lemma nearest_dist_Raise dists r i e :
  nearest_dist dists r i = Raise e -> e = IndexError \/ e = ZeroSizeReduction.
Proof.
  unfold nearest_dist, index, contacts. rewrite nth_error_map.
  destruct (nth_error dists i) as [row|]; simpl.
  - destruct (compress _ row); simpl; intros H; [|discriminate].
    injection H as <-. auto.
  - intros H. injection H as <-. auto.
Qed.

Lemma mapM_Raise {A B : Type} (f : A -> result B) (l : list A) e :
  mapM f l = Raise e -> exists a, In a l /\ f a = Raise e.
Proof.
  induction l as [|a l IH]; simpl; [discriminate|].
  destruct (f a) as [b|e'] eqn:Ea; simpl.
  - destruct (mapM f l) as [bs|e'']; simpl; [discriminate|].
    intros H. destruct (IH H) as (a' & Hin & Ha'). eauto.
  - intros H. injection H as <-. eauto.
Qed.

Lemma select_passed hex_centers dists s r :
  any (contacts dists r) = true ->
  all (too_close_mask dists s) = false ->
  select hex_centers dists s r =
    (hex_ixs <- suitable_ixs dists s r ;;
     check! negb (length hex_ixs =? 0)%nat else NoSuitable ;;
     min_dists <- mapM (nearest_dist dists r) hex_ixs ;;
     i_best <- argmax min_dists ;;
     hex_ix_best <- index hex_ixs i_best ;;
     insertion_point <- index hex_centers hex_ix_best ;;
     Ok (mkSelection (count_neighbors dists r) hex_ixs min_dists
                     hex_ix_best insertion_point)).
Proof. intros H1 H2. unfold select. rewrite H1, H2. reflexivity. Qed.

(** Once a center is not disqualified, the suitable set has a member. *)
Lemma suitable_ixs_nonempty dists s r :
  all (too_close_mask dists s) = false ->
  exists ixs, suitable_ixs dists s r = Ok ixs /\ ixs <> [].
Proof.
  intros H. destruct (suitable_ixs_total dists s r H) as (ixs & Hixs).
  exists ixs. split; [exact Hixs|].
  destruct (suitable_ixs_Ok dists s r ixs Hixs) as (m & Hm & Hiff).
  destruct (min_neighbors_Ok dists s r m Hm) as ((i & Ht & Hc) & _).
  intros E. assert (Hin : In i ixs) by (apply Hiff; auto).
  rewrite E in Hin. exact Hin.
Qed.

(** What a successful selection returns. *)
Lemma select_Ok hex_centers dists s r sel :
  select hex_centers dists s r = Ok sel ->
  any (contacts dists r) = true /\
  all (too_close_mask dists s) = false /\
  n_neighbors sel = count_neighbors dists r /\
  suitable_ixs dists s r = Ok (hex_ixs sel) /\
  mapM (nearest_dist dists r) (hex_ixs sel) = Ok (min_dists sel) /\
  exists k, argmax (min_dists sel) = Ok k /\
    nth_error (hex_ixs sel) k = Some (hex_ix_best sel) /\
    nth_error hex_centers (hex_ix_best sel) = Some (insertion_point sel).
Proof.
  unfold select.
  destruct (any (contacts dists r)) eqn:Hany; [|discriminate].
  destruct (all (too_close_mask dists s)) eqn:Hall; [discriminate|]. simpl.
  intros H. apply bind_Ok in H as (ixs & Hixs & H).
  destruct (negb (length ixs =? 0)%nat); [|discriminate].
  apply bind_Ok in H as (ds & Hds & H).
  apply bind_Ok in H as (k & Hk & H).
  apply bind_Ok in H as (best & Hbest & H).
  apply bind_Ok in H as (p & Hp & H).
  injection H as <-. simpl.
  apply index_Ok in Hbest. apply index_Ok in Hp.
  repeat split; auto. exists k. auto.
Qed.

(** The exceptions of the selection, and when each is raised. *)
Lemma select_Raise hex_centers dists s r e :
  select hex_centers dists s r = Raise e ->
  (e = NoNeighbors r /\ any (contacts dists r) = false) \/
  (e = AllTooClose s /\ any (contacts dists r) = true /\
     all (too_close_mask dists s) = true) \/
  ((e = ZeroSizeReduction \/ e = IndexError) /\ any (contacts dists r) = true /\
     all (too_close_mask dists s) = false).
Proof.
  unfold select.
  destruct (any (contacts dists r)) eqn:Hany;
    [|intros H; injection H as <-; auto].
  destruct (all (too_close_mask dists s)) eqn:Hall; simpl;
    [intros H; injection H as <-; auto|].
  intros H. right. right. split; [|auto].
  destruct (suitable_ixs_nonempty dists s r Hall) as (ixs & Hixs & Hne).
  rewrite Hixs in H. simpl in H.
  destruct ixs as [|i ixs]; [congruence|]. simpl negb in H. cbv iota in H.
  destruct (mapM (nearest_dist dists r) (i :: ixs)) as [ds|e'] eqn:Hds.
  - simpl in H. destruct (argmax ds) as [k|e'] eqn:Hk.
    + simpl in H. unfold index in H.
      destruct (nth_error (i :: ixs) k) as [best|]; simpl in H;
        [|injection H as <-; auto].
      destruct (nth_error hex_centers best); simpl in H;
        [discriminate | injection H as <-; auto].
    + simpl in H. injection H as <-.
      destruct ds; simpl in Hk; [injection Hk as <-; auto | discriminate].
  - simpl in H. injection H as <-.
    apply mapM_Raise in Hds as (a & _ & Ha).
    apply nearest_dist_Raise in Ha. tauto.
Qed.

End SelectFacts.

(** ** Statements about the selector *)

Import Np NpFacts ArgmaxFacts SelectorFacts SelectFacts.

(** Totality of the selection: when both checks pass, every center that
    is not disqualified has a neighbor within [r_cut], and there is a
    position for every row of the distance matrix, the selection
    returns. *)
Lemma select_total hex_centers dists s r m :
  any (contacts dists r) = true ->
  all (too_close_mask dists s) = false ->
  min_neighbors dists s r = Ok (S m) ->
  length hex_centers = length dists ->
  exists sel, select hex_centers dists s r = Ok sel.
Proof.
  intros Hany Hall Hm Hlen. rewrite (select_passed _ _ _ _ Hany Hall).
  destruct (suitable_ixs_nonempty dists s r Hall) as (ixs & Hixs & Hne).
  rewrite Hixs. simpl bind.
  destruct (suitable_ixs_Ok dists s r ixs Hixs) as (m' & Hm' & Hiff).
  assert (m' = S m) by congruence. subst m'.
  assert (Hnear : forall i, In i ixs -> exists d, nearest_dist dists r i = Ok d).
  { intros i Hi. apply Hiff in Hi as (Hc & _). rewrite count_nth in Hc.
    destruct (nth_error dists i) as [row|] eqn:Hrow; simpl in Hc; [|discriminate].
    injection Hc as Hc.
    destruct (min_total (filter (fun d => Qle_bool d r) row)) as (d & Hd).
    - intros E. rewrite count_true_map, E in Hc. discriminate.
    - exists d. apply nearest_dist_Ok. eauto. }
  destruct (mapM_total _ _ Hnear) as (ds & Hds). rewrite Hds.
  assert (Hlds : length ds = length ixs).
  { symmetry. eapply Forall2_length, mapM_Ok, Hds. }
  destruct ixs as [|i0 ixs]; [congruence|]. simpl negb. cbv iota. simpl bind.
  destruct (argmax_total ds) as (k & Hk).
  { destruct ds; simpl in Hlds; [discriminate | congruence]. }
  rewrite Hk. simpl bind.
  destruct (argmax_Ok ds k Hk) as (d & Hd & _).
  assert (Hklt : (k < length (i0 :: ixs))%nat).
  { rewrite <- Hlds. apply nth_error_Some. congruence. }
  unfold index.
  destruct (nth_error (i0 :: ixs) k) as [best|] eqn:Hbest;
    [|apply nth_error_None in Hbest; lia].
  simpl bind.
  assert (Hin : In best (i0 :: ixs)) by (eapply nth_error_In; eassumption).
  apply Hiff in Hin as (Hc & _).
  assert (Hblt : (best < length hex_centers)%nat).
  { rewrite Hlen. rewrite count_nth in Hc.
    apply nth_error_Some. destruct (nth_error dists best); [congruence|discriminate]. }
  destruct (nth_error hex_centers best) as [p|] eqn:Hp;
    [|apply nth_error_None in Hp; lia].
  simpl. eauto.
Qed.

(** The best center of a successful selection is the first suitable
    center whose nearest-neighbor distance is the largest, and the
    insertion point is its position. *)
Lemma select_best_first_argmax hex_centers dists s r sel :
  select hex_centers dists s r = Ok sel ->
  exists k d,
    nth_error (hex_ixs sel) k = Some (hex_ix_best sel) /\
    nearest_dist dists r (hex_ix_best sel) = Ok d /\
    nth_error hex_centers (hex_ix_best sel) = Some (insertion_point sel) /\
    (forall j i d', nth_error (hex_ixs sel) j = Some i ->
       nearest_dist dists r i = Ok d' -> d' <= d) /\
    (forall j i d', (j < k)%nat -> nth_error (hex_ixs sel) j = Some i ->
       nearest_dist dists r i = Ok d' -> d' < d).
Proof.
  intros H. apply select_Ok in H as (_ & _ & _ & _ & Hds & k & Hk & Hbest & Hp).
  apply mapM_Ok in Hds. apply argmax_Ok in Hk as (d & Hd & Hmax & Hfirst).
  assert (Hall : forall j i d', nth_error (hex_ixs sel) j = Some i ->
            nearest_dist dists r i = Ok d' -> nth_error (min_dists sel) j = Some d').
  { intros j i d' Hj Hi.
    destruct (nth_error (min_dists sel) j) as [d''|] eqn:Hd''.
    - pose proof (Forall2_nth_error _ _ _ Hds j i d'' Hj Hd'') as E.
      simpl in E. congruence.
    - apply nth_error_None in Hd''. rewrite <- (Forall2_length Hds) in Hd''.
      apply nth_error_None in Hd''. congruence. }
  exists k, d. repeat split; auto.
  - exact (Forall2_nth_error _ _ _ Hds k _ d Hbest Hd).
  - intros j i d' Hj Hi. eapply Hmax, Hall; eassumption.
  - intros j i d' Hjk Hj Hi. eapply Hfirst; [exact Hjk|]. eapply Hall; eassumption.
Qed.

(** C1.  The selection does not return a best insertion point for every
    invocation that passes the no-contact and all-disqualified checks: with
    two centers and one atom at distances 3 and 10 ([r_min = 2],
    [r_max = 5]) both checks pass and the suitable set is center 1, the one
    with no neighbor, but [np.min] of its empty contact row raises and no
    insertion point is returned. *)
Theorem C1_no_best_for_center_without_neighbors :
  any (contacts Examples.dists_lonely 5) = true /\
  all (too_close_mask Examples.dists_lonely 2) = false /\
  suitable_ixs Examples.dists_lonely 2 5 = Ok [1%nat] /\
  select Examples.centers2 Examples.dists_lonely 2 5 = Raise ZeroSizeReduction.
Proof. repeat split; reflexivity. Qed.

(** The neighbor count of the script, [np.sum(cm, axis=1)], is the number
    of distances of the row that are at most the cutoff. *)
Lemma count_within_filter r row :
  count_within r row (length (filter (fun d => Qle_bool d r) row)).
Proof.
  induction row as [|d row IH]; simpl; [constructor|].
  destruct (Qle_bool d r) eqn:E; simpl.
  - apply count_in; [apply Qle_bool_iff, E | exact IH].
  - apply count_out; [apply Qle_bool_false, E | exact IH].
Qed.

Lemma count_within_fun r row n n' :
  count_within r row n -> count_within r row n' -> n = n'.
Proof.
  intros H. revert n'. induction H as [|d row n Hd _ IH|d row n Hd _ IH];
    intros n' H'; inversion H'; subst; auto.
  - exfalso. eapply Qlt_not_le; eassumption.
  - exfalso. eapply Qlt_not_le; eassumption.
Qed.

Lemma neighbor_count_iff dists r i n :
  nth_error (count_neighbors dists r) i = Some n <-> neighbor_count dists r i n.
Proof.
  rewrite count_nth. unfold neighbor_count.
  destruct (nth_error dists i) as [row|]; simpl.
  - rewrite count_true_map. split.
    + intros H. injection H as <-. exists row. split; [reflexivity|].
      apply count_within_filter.
    + intros (row' & E & H). injection E as <-. f_equal.
      eapply count_within_fun; [apply count_within_filter | exact H].
  - split; [discriminate | intros (row & E & _); discriminate].
Qed.

Lemma qualified_not_disqualified dists s i :
  qualified dists s i <->
  (exists row, nth_error dists i = Some row) /\ ~ disqualified dists s i.
Proof.
  split.
  - intros (row & Hrow & Hfar). split; [eauto|].
    intros (row' & d & Hrow' & Hin & Hle).
    assert (row' = row) by congruence. subst row'.
    exact (Qlt_not_le _ _ (Hfar d Hin) Hle).
  - intros ((row & Hrow) & Hnot). exists row. split; [exact Hrow|].
    intros d Hin. apply Qnot_le_lt. intros Hle. apply Hnot.
    exists row, d. auto.
Qed.

Lemma exists_qualified_iff dists s :
  (exists i, qualified dists s i) <-> all (too_close_mask dists s) = false.
Proof.
  split.
  - intros (i & Hq). destruct (all (too_close_mask dists s)) eqn:E; [|reflexivity].
    apply too_close_false_iff in Hq. unfold all in E. rewrite forallb_forall in E.
    apply nth_error_In, E in Hq. discriminate Hq.
  - intros H. apply forallb_id_false in H as (i & Hi).
    exists i. apply too_close_false_iff, Hi.
Qed.

(** C2.  Whenever some center is not disqualified, the suitable set is
    computed and is exactly the set of the centers whose number of
    distances within [r_cut] equals the least such number over the
    centers that are not disqualified, without the disqualified ones; no
    center with an atom at distance at most [sigma_Li] (r_min) is in
    it. *)
Theorem C2_suitable_set dists sigma_Li r_cut :
  (exists i, qualified dists sigma_Li i) ->
  exists m ixs,
    min_neighbors dists sigma_Li r_cut = Ok m /\
    suitable_ixs dists sigma_Li r_cut = Ok ixs /\
    (exists i, qualified dists sigma_Li i /\ neighbor_count dists r_cut i m) /\
    (forall i n, qualified dists sigma_Li i -> neighbor_count dists r_cut i n ->
                 (m <= n)%nat) /\
    (forall i, In i ixs <->
       neighbor_count dists r_cut i m /\ ~ disqualified dists sigma_Li i) /\
    (forall i, disqualified dists sigma_Li i -> ~ In i ixs).
Proof.
  intros Hsome. apply exists_qualified_iff in Hsome as Hall.
  destruct (suitable_ixs_total dists sigma_Li r_cut Hall) as (ixs & Hixs).
  destruct (suitable_ixs_Ok dists sigma_Li r_cut ixs Hixs) as (m & Hm & Hiff).
  destruct (min_neighbors_Ok dists sigma_Li r_cut m Hm) as ((i & Ht & Hc) & Hmin).
  assert (Hiff' : forall i, In i ixs <->
            neighbor_count dists r_cut i m /\ ~ disqualified dists sigma_Li i).
  { intros j. rewrite Hiff, neighbor_count_iff, too_close_false_iff,
      qualified_not_disqualified.
    split; [tauto|]. intros (Hcj & Hnot). split; [exact Hcj|]. split; [|exact Hnot].
    destruct Hcj as (row & Hrow & _). eauto. }
  exists m, ixs.
  split; [exact Hm|]. split; [exact Hixs|]. split; [|split; [|split]].
  - exists i. split; [apply too_close_false_iff, Ht | apply neighbor_count_iff, Hc].
  - intros j n Hq Hn. apply (Hmin j n);
      [apply too_close_false_iff, Hq | apply neighbor_count_iff, Hn].
  - exact Hiff'.
  - intros j Hd Hin. apply Hiff' in Hin as (_ & Hn). contradiction.
Qed.

Lemma C2_suitable_set_witness :
  flatnonzero (map (fun n => n =? 1)%nat (count_neighbors Examples.dists_tie 8))
    = [0; 1; 2]%nat /\
  suitable_ixs Examples.dists_tie 2 8 = Ok [0; 1]%nat /\
  exists m ixs,
    min_neighbors Examples.dists_tie 2 8 = Ok m /\
    suitable_ixs Examples.dists_tie 2 8 = Ok ixs /\
    (exists i, qualified Examples.dists_tie 2 i /\
               neighbor_count Examples.dists_tie 8 i m) /\
    (forall i n, qualified Examples.dists_tie 2 i ->
                 neighbor_count Examples.dists_tie 8 i n -> (m <= n)%nat) /\
    (forall i, In i ixs <->
       neighbor_count Examples.dists_tie 8 i m /\ ~ disqualified Examples.dists_tie 2 i) /\
    (forall i, disqualified Examples.dists_tie 2 i -> ~ In i ixs).
Proof.
  split; [reflexivity|]. split; [reflexivity|].
  apply (C2_suitable_set Examples.dists_tie 2 8).
  exists 0%nat, [5; 9]. split; [reflexivity|].
  intros d [<- | [<- | []]]; reflexivity.
Defined.

Lemma any_contacts_false_iff dists r :
  any (contacts dists r) = false <-> no_contact dists r.
Proof.
  unfold no_contact. split.
  - intros H row d Hrow Hd. apply Qnot_le_lt. intros Hle.
    assert (E : any (contacts dists r) = true)
      by (apply any_contacts_iff; exists row, d; auto).
    congruence.
  - intros H. destruct (any (contacts dists r)) eqn:E; [|reflexivity].
    apply any_contacts_iff in E as (row & d & Hrow & Hd & Hle).
    exfalso. exact (Qlt_not_le _ _ (H row d Hrow Hd) Hle).
Qed.

Lemma all_disqualified_iff dists s :
  all (too_close_mask dists s) = true <->
  forall i, (i < length dists)%nat -> disqualified dists s i.
Proof.
  rewrite all_too_close_iff. unfold disqualified. split.
  - intros H i Hi.
    destruct (nth_error dists i) as [row|] eqn:Hrow;
      [|apply nth_error_None in Hrow; lia].
    destruct (H row (nth_error_In _ _ Hrow)) as (d & Hd). exists row, d. tauto.
  - intros H row Hin. apply In_nth_error in Hin as (i & Hi).
    destruct (H i) as (row' & d & Hrow' & Hd).
    + apply nth_error_Some. congruence.
    + exists d. congruence.
Qed.

(** C4.  The selection raises the "no neighbors" exception exactly when
    the contact matrix for [r_cut] is entirely false, whatever the rest of
    the input; when some contact exists it raises the "all too close"
    exception exactly when every center has an atom within [sigma_Li].
    The two exceptions are different values, and the first check comes
    first: an input that fails both gets "no neighbors". *)
Theorem C4_failure_variants hex_centers dists sigma_Li r_cut :
  (select hex_centers dists sigma_Li r_cut = Raise (NoNeighbors r_cut) <->
     no_contact dists r_cut) /\
  (forall r, select hex_centers dists sigma_Li r_cut = Raise (NoNeighbors r) ->
     no_contact dists r_cut) /\
  (~ no_contact dists r_cut ->
     (select hex_centers dists sigma_Li r_cut = Raise (AllTooClose sigma_Li) <->
        forall i, (i < length dists)%nat -> disqualified dists sigma_Li i)) /\
  (forall r, select hex_centers dists sigma_Li r_cut = Raise (AllTooClose r) ->
     ~ no_contact dists r_cut /\
     forall i, (i < length dists)%nat -> disqualified dists sigma_Li i) /\
  (forall r r', NoNeighbors r <> AllTooClose r').
Proof.
  assert (Hno : forall r, select hex_centers dists sigma_Li r_cut = Raise (NoNeighbors r) ->
                  no_contact dists r_cut).
  { intros r H. apply select_Raise in H as [(_ & H) | [(H & _) | ([H | H] & _)]];
      try discriminate. apply any_contacts_false_iff, H. }
  assert (Hclose : forall r, select hex_centers dists sigma_Li r_cut = Raise (AllTooClose r) ->
            ~ no_contact dists r_cut /\
            forall i, (i < length dists)%nat -> disqualified dists sigma_Li i).
  { intros r H. apply select_Raise in H as [(H & _) | [(_ & Ha & Hb) | ([H | H] & _)]];
      try discriminate. split.
    - rewrite <- any_contacts_false_iff. congruence.
    - apply all_disqualified_iff, Hb. }
  split; [|split; [exact Hno|split; [|split; [exact Hclose|]]]].
  - split; [apply Hno|]. intros H. apply any_contacts_false_iff in H.
    unfold select. rewrite H. reflexivity.
  - intros Hsome. split; [apply Hclose|]. intros H.
    apply all_disqualified_iff in H. unfold select.
    destruct (any (contacts dists r_cut)) eqn:E.
    + rewrite H. reflexivity.
    + apply any_contacts_false_iff in E. contradiction.
  - intros r r' H. discriminate H.
Qed.

(** C9.  When the no-contact check and the all-disqualified check both
    pass, the suitable set is computed and is not empty, and the selection
    does not raise the "no suitable hexagon center" exception. *)
Theorem C9_suitable_set_nonempty hex_centers dists sigma_Li r_cut :
  any (contacts dists r_cut) = true ->
  all (too_close_mask dists sigma_Li) = false ->
  (exists ixs, suitable_ixs dists sigma_Li r_cut = Ok ixs /\ ixs <> []) /\
  select hex_centers dists sigma_Li r_cut <> Raise NoSuitable.
Proof.
  intros Hany Hall. split; [apply suitable_ixs_nonempty, Hall|].
  intros H. apply select_Raise in H as [(H & _) | [(H & _) | ([H | H] & _)]];
    discriminate.
Qed.

Lemma C9_suitable_set_nonempty_witness :
  any (contacts Examples.dists3 8) = true /\
  all (too_close_mask Examples.dists3 2) = false /\
  (exists ixs, suitable_ixs Examples.dists3 2 8 = Ok ixs /\ ixs <> []) /\
  select Examples.centers3 Examples.dists3 2 8 <> Raise NoSuitable.
Proof.
  split; [reflexivity|]. split; [reflexivity|].
  apply (C9_suitable_set_nonempty Examples.centers3 Examples.dists3 2 8);
    reflexivity.
Defined.

(** C10.  In a successful selection every suitable center has a
    nearest-neighbor distance [d] with [sigma_Li < d <= r_cut]
    (r_min < d <= r_max), and so has the best center. *)
Theorem C10_nearest_distance_bounds hex_centers dists sigma_Li r_cut sel :
  select hex_centers dists sigma_Li r_cut = Ok sel ->
  length (min_dists sel) = length (hex_ixs sel) /\
  (forall k i d, nth_error (hex_ixs sel) k = Some i ->
     nth_error (min_dists sel) k = Some d ->
     nearest_dist dists r_cut i = Ok d /\ sigma_Li < d /\ d <= r_cut) /\
  (exists d, nearest_dist dists r_cut (hex_ix_best sel) = Ok d /\
     sigma_Li < d /\ d <= r_cut).
Proof.
  intros H.
  destruct (select_best_first_argmax _ _ _ _ _ H) as (kb & db & Hkb & Hdb & _).
  apply select_Ok in H as (_ & _ & _ & Hixs & Hds & _).
  apply mapM_Ok in Hds.
  destruct (suitable_ixs_Ok _ _ _ _ Hixs) as (m & _ & Hiff).
  assert (Hbound : forall i d, In i (hex_ixs sel) ->
            nearest_dist dists r_cut i = Ok d -> sigma_Li < d /\ d <= r_cut).
  { intros i d Hin Hd. apply Hiff in Hin as (_ & Ht).
    apply too_close_false_iff in Ht as (row & Hrow & Hfar).
    apply nearest_dist_bounds in Hd as (row' & Hrow' & Hin' & Hle & _).
    assert (row' = row) by congruence. subst row'. auto. }
  split; [symmetry; exact (Forall2_length Hds)|]. split.
  - intros k i d Hi Hd.
    pose proof (Forall2_nth_error _ _ _ Hds k i d Hi Hd) as Hnear.
    simpl in Hnear. split; [exact Hnear|].
    apply (Hbound i d); [eapply nth_error_In; eassumption | exact Hnear].
  - exists db. split; [exact Hdb|].
    apply (Hbound (hex_ix_best sel) db); [eapply nth_error_In; eassumption | exact Hdb].
Qed.

Lemma C10_nearest_distance_bounds_witness :
  select Examples.centers3 Examples.dists3 2 8 = Ok Examples.sel3 /\
  length (min_dists Examples.sel3) = length (hex_ixs Examples.sel3) /\
  (forall k i d, nth_error (hex_ixs Examples.sel3) k = Some i ->
     nth_error (min_dists Examples.sel3) k = Some d ->
     nearest_dist Examples.dists3 8 i = Ok d /\ 2 < d /\ d <= 8) /\
  (exists d, nearest_dist Examples.dists3 8 (hex_ix_best Examples.sel3) = Ok d /\
     2 < d /\ d <= 8).
Proof.
  split; [reflexivity|].
  apply (C10_nearest_distance_bounds Examples.centers3 Examples.dists3 2 8
           Examples.sel3).
  reflexivity.
Defined.

(** ** Sorting *)

Module SortFacts.
Import Np.

Section Argsort.

Variable leb : nat -> nat -> bool.
Hypothesis leb_total : forall i j, leb i j = false -> leb j i = true.

Lemma insert_ix_HdRel a i l :
  ix_le leb a i -> HdRel (ix_le leb) a l -> HdRel (ix_le leb) a (insert_ix leb i l).
Proof.
  intros Hai Hal. destruct l as [|b l]; simpl.
  - constructor. exact Hai.
  - destruct (leb i b); constructor; [exact Hai|].
    inversion Hal; assumption.
Qed.

Lemma insert_ix_Sorted i l : Sorted (ix_le leb) l -> Sorted (ix_le leb) (insert_ix leb i l).
Proof.
  induction 1 as [|a l Hl IH Ha]; simpl.
  - repeat constructor.
  - destruct (leb i a) eqn:E.
    + constructor; [constructor; assumption|]. constructor. exact E.
    + constructor; [exact IH|]. apply insert_ix_HdRel; [|exact Ha].
      apply leb_total, E.
Qed.

Lemma argsort_Sorted n : Sorted (ix_le leb) (argsort leb n).
Proof.
  unfold argsort. induction (seq 0 n) as [|i l IH]; simpl.
  - constructor.
  - apply insert_ix_Sorted, IH.
Qed.

End Argsort.

Lemma insert_ix_Permutation leb i l : Permutation (insert_ix leb i l) (i :: l).
Proof.
  induction l as [|j l IH]; simpl; [reflexivity|].
  destruct (leb i j); [reflexivity|].
  rewrite IH. apply perm_swap.
Qed.

(** [argsort] returns a permutation of the indices [0 .. n-1]. *)
Lemma argsort_Permutation leb n : Permutation (argsort leb n) (seq 0 n).
Proof.
  unfold argsort. induction (seq 0 n) as [|i l IH]; simpl; [reflexivity|].
  rewrite insert_ix_Permutation. constructor. exact IH.
Qed.

Lemma argsort_length leb n : length (argsort leb n) = n.
Proof.
  rewrite (Permutation_length (argsort_Permutation leb n)). apply length_seq.
Qed.

Lemma map_nth_seq_from {A : Type} (d : A) (pre l : list A) :
  map (fun i => nth i (pre ++ l) d) (seq (length pre) (length l)) = l.
Proof.
  revert pre; induction l as [|x l IH]; intros pre; simpl; [reflexivity|].
  f_equal.
  - rewrite app_nth2, Nat.sub_diag by lia. reflexivity.
  - specialize (IH (pre ++ [x])).
    rewrite <- app_assoc, length_app, Nat.add_comm in IH. exact IH.
Qed.

Lemma take_seq faces : take faces (seq 0 (length faces)) = faces.
Proof. exact (map_nth_seq_from origin [] faces). Qed.

(** Indexing with the sorting permutation rearranges the faces. *)
Lemma take_lexsort_Permutation faces :
  Permutation (take faces (lexsort faces)) faces.
Proof.
  rewrite <- (take_seq faces) at 3. unfold take, lexsort.
  apply Permutation_map, argsort_Permutation.
Qed.

Lemma take_lexsort_length faces : length (take faces (lexsort faces)) = length faces.
Proof. apply Permutation_length, take_lexsort_Permutation. Qed.

Lemma pos_leb_total p q : pos_leb p q = false -> pos_leb q p = true.
Proof.
  unfold pos_leb. rewrite <- (Qcompare_antisym (px q) (px p)).
  destruct (Qcompare (px q) (px p)); simpl; try congruence.
  rewrite <- (Qcompare_antisym (py q) (py p)).
  destruct (Qcompare (py q) (py p)); simpl; try congruence.
  intros H. apply Qle_bool_iff, Qlt_le_weak, Qnot_le_lt.
  rewrite <- Qle_bool_iff. congruence.
Qed.

Lemma pos_leb_lex_le p q : pos_leb p q = true -> lex_le p q.
Proof.
  unfold pos_leb, lex_le.
  destruct (Qcompare (px p) (px q)) eqn:Ex.
  - apply Qeq_alt in Ex. destruct (Qcompare (py p) (py q)) eqn:Ey.
    + apply Qeq_alt in Ey. intros H. apply Qle_bool_iff in H. auto.
    + apply Qlt_alt in Ey. auto.
    + discriminate.
  - apply Qlt_alt in Ex. auto.
  - discriminate.
Qed.

Lemma lex_le_trans p q r : lex_le p q -> lex_le q r -> lex_le p r.
Proof.
  unfold lex_le.
  intros [Hx | (Hx & Hy)] [Hx' | (Hx' & Hy')].
  - left. eapply Qlt_trans; eassumption.
  - left. rewrite <- Hx'. exact Hx.
  - left. rewrite Hx. exact Hx'.
  - right. split; [rewrite Hx; exact Hx'|].
    destruct Hy as [Hy | (Hy & Hz)], Hy' as [Hy' | (Hy' & Hz')].
    + left. eapply Qlt_trans; eassumption.
    + left. rewrite <- Hy'. exact Hy.
    + left. rewrite Hy. exact Hy'.
    + right. split; [rewrite Hy; exact Hy' | eapply Qle_trans; eassumption].
Qed.

Lemma Sorted_map {A B : Type} (R : B -> B -> Prop) (f : A -> B) l :
  Sorted (fun a b => R (f a) (f b)) l -> Sorted R (map f l).
Proof.
  induction 1 as [|a l Hl IH Ha]; simpl; constructor; [exact IH|].
  destruct Ha; simpl; constructor; assumption.
Qed.

(** The faces indexed by the sorting permutation are in lexicographic
    order: every face is below all the later ones. *)
Lemma take_lexsort_sorted faces :
  StronglySorted lex_le (take faces (lexsort faces)).
Proof.
  apply Sorted_StronglySorted; [exact lex_le_trans|].
  unfold take, lexsort. apply Sorted_map.
  set (leb := fun i j => pos_leb (nth i faces origin) (nth j faces origin)).
  assert (Htotal : forall i j, leb i j = false -> leb j i = true)
    by (intros i j; apply pos_leb_total).
  pose proof (argsort_Sorted leb Htotal (length faces)) as H.
  eapply Sorted_ind with (P := Sorted _); [| |exact H].
  - constructor.
  - intros a l _ IH Ha. constructor; [exact IH|].
    destruct Ha; constructor. apply pos_leb_lex_le. assumption.
Qed.

End SortFacts.

(** ** The lattice face resolver *)

Module ResolverFacts.
Import Np NpFacts SortFacts.

Lemma compress_incl {A : Type} (mask : list bool) (a : list A) x :
  In x (compress mask a) -> In x a.
Proof.
  intros H. apply compress_In in H as (i & _ & H).
  eapply nth_error_In; eassumption.
Qed.

Lemma ceil_neg_log10_total tol : 0 < tol -> exists p, ceil_neg_log10 tol = Ok p.
Proof.
  unfold ceil_neg_log10, Qlt. destruct tol as [n d]. simpl.
  destruct n; intros H; try lia. eauto.
Qed.

Section Wrap.

Variable wrap : Box -> Pos -> Pos.

(** The validation accepts only the two flat sides. *)
Lemma check_hex_lattice_flatside verts r0 box flatside tol :
  check_hex_lattice wrap verts r0 box flatside tol = Ok tt ->
  flatside = "x"%string \/ flatside = "y"%string.
Proof.
  unfold check_hex_lattice. intros H.
  apply bind_Ok in H as (v0 & _ & H).
  destruct (allclose _ _ _); [|discriminate].
  destruct (String.eqb flatside "x") eqn:Ex; [apply String.eqb_eq in Ex; auto|].
  destruct (String.eqb flatside "y") eqn:Ey; [apply String.eqb_eq in Ey; auto|].
  discriminate.
Qed.

(** The validation accepts only a non-empty vertex set. *)
Lemma check_hex_lattice_nonempty verts r0 box flatside tol :
  check_hex_lattice wrap verts r0 box flatside tol = Ok tt -> verts <> [].
Proof.
  intros H E. subst verts. discriminate H.
Qed.

(** What a successful call of the resolver returns: the sorted
    rearrangement of half as many faces as there are vertices, each the
    rounded, wrapped image of a shifted wrapped vertex. *)
Lemma hex_verts2faces_Ok verts r0 box flatside tol faces :
  hex_verts2faces wrap verts r0 box flatside tol = Ok faces ->
  check_hex_lattice wrap verts r0 box flatside tol = Ok tt /\
  exists precision unsorted,
    ceil_neg_log10 tol = Ok precision /\
    faces = take unsorted (lexsort unsorted) /\
    (2 * length unsorted = length verts)%nat /\
    forall f, In f unsorted -> exists v, In v verts /\
      f = round_pos precision (wrap box (add_flat flatside r0 (wrap box v))).
Proof.
  unfold hex_verts2faces. intros H.
  apply bind_Ok in H as ([] & Hcheck & H). split; [exact Hcheck|].
  apply bind_Ok in H as (shifted & Hshift & H).
  apply bind_Ok in H as (p & Hp & H).
  match type of H with
  | (if (2 * length ?u =? _)%nat then _ else _) = _ => set (unsorted := u) in *
  end.
  destruct (2 * length unsorted =? _)%nat eqn:Hlen; [|discriminate].
  injection H as <-. exists p, unsorted.
  split; [exact Hp|]. split; [reflexivity|]. split.
  - apply Nat.eqb_eq in Hlen. unfold apply_PBC in Hlen.
    rewrite !length_map in Hlen. exact Hlen.
  - intros f Hf. apply compress_incl in Hf.
    assert (Hs : shifted = map (add_flat flatside r0) (apply_PBC wrap verts box)).
    { unfold add_flat. destruct (check_hex_lattice_flatside _ _ _ _ _ Hcheck);
        subst flatside; simpl in Hshift; injection Hshift as <-; reflexivity. }
    subst shifted. unfold apply_PBC in Hf. rewrite !map_map in Hf.
    apply in_map_iff in Hf as (v & <- & Hv). eauto.
Qed.

(** Totality of the resolver: an accepted lattice and a positive
    tolerance give either the faces or the face-count exception. *)
Lemma hex_verts2faces_total verts r0 box flatside tol :
  0 < tol ->
  check_hex_lattice wrap verts r0 box flatside tol = Ok tt ->
  (exists faces, hex_verts2faces wrap verts r0 box flatside tol = Ok faces) \/
  (exists n_faces,
     hex_verts2faces wrap verts r0 box flatside tol =
       Raise (FaceCount n_faces (length verts)) /\
     (2 * n_faces <> length verts)%nat).
Proof.
  intros Htol Hcheck. unfold hex_verts2faces. rewrite Hcheck. cbn [bind].
  destruct (ceil_neg_log10_total tol Htol) as (p & Hp).
  assert (Hshift : exists shifted,
            (if String.eqb flatside "x"
             then Ok (map (add_x r0) (apply_PBC wrap verts box))
             else if String.eqb flatside "y"
                  then Ok (map (add_y r0) (apply_PBC wrap verts box))
                  else Raise (BadFlatside flatside)) = Ok shifted).
  { destruct (check_hex_lattice_flatside _ _ _ _ _ Hcheck); subst flatside;
      simpl; eauto. }
  destruct Hshift as (shifted & ->). cbn [bind]. rewrite Hp. cbn [bind].
  match goal with
  | |- context [(2 * length ?u =? _)%nat] => set (unsorted := u)
  end.
  replace (length (map (round_pos p) (apply_PBC wrap verts box)))
    with (length verts) by (unfold apply_PBC; rewrite !length_map; reflexivity).
  destruct (2 * length unsorted =? length verts)%nat eqn:Hlen.
  - left. eauto.
  - right. exists (length unsorted). split; [reflexivity|].
    apply Nat.eqb_neq, Hlen.
Qed.

End Wrap.

End ResolverFacts.

(** ** The periodicity test *)

Module RemainderFacts.
Import Np.

(** For a positive divisor the remainder lies in [[0, m)]. *)
Lemma remainder_Some b m : 0 < m ->
  exists r, remainder b m = Some r /\ 0 <= r /\ r < m /\
    r == b - inject_Z (Qfloor (b / m)) * m.
Proof.
  intros Hm. unfold remainder.
  destruct (Qeq_bool m 0) eqn:E.
  - apply Qeq_bool_iff in E. rewrite E in Hm. exfalso. exact (Qlt_irrefl _ Hm).
  - assert (Hm0 : ~ m == 0) by (intros H; rewrite H in Hm; exact (Qlt_irrefl _ Hm)).
    eexists. split; [reflexivity|]. split; [|split; [|reflexivity]].
    + assert (H : inject_Z (Qfloor (b / m)) * m <= b / m * m).
      { apply Qmult_le_compat_r; [apply Qfloor_le | apply Qlt_le_weak, Hm]. }
      assert (E' : b / m * m == b) by (field; exact Hm0).
      rewrite E' in H. unfold Qminus. rewrite <- Qle_minus_iff. exact H.
    + assert (H : b / m * m < inject_Z (Qfloor (b / m) + 1) * m).
      { apply Qmult_lt_compat_r; [exact Hm | apply Qlt_floor]. }
      assert (E' : b / m * m == b) by (field; exact Hm0).
      rewrite E' in H. rewrite inject_Z_plus in H.
      apply Qlt_minus_iff in H. apply Qlt_minus_iff.
      assert (E2 : (inject_Z (Qfloor (b / m)) + inject_Z 1) * m + - b ==
                   m + - (b - inject_Z (Qfloor (b / m)) * m)) by ring.
      rewrite <- E2. exact H.
Qed.

(** The periodicity test accepts a length exactly when it exceeds an
    integer multiple of the period by at most the tolerance. *)
Lemma remainder_isclose0_iff b m tol : 0 < m ->
  remainder_isclose0 b m tol = true <-> exceeds_multiple b m tol.
Proof.
  intros Hm. unfold remainder_isclose0, exceeds_multiple.
  destruct (remainder_Some b m Hm) as (r & -> & Hr0 & _ & Hr).
  unfold isclose. rewrite Qle_bool_iff.
  assert (Eabs : Qabs (r - 0) == r).
  { assert (E : r - 0 == r) by ring. rewrite E. apply Qabs_pos, Hr0. }
  rewrite Eabs. split.
  - intros H. exists (Qfloor (b / m)). rewrite <- Hr. auto.
  - intros (k & Hk0 & Hk).
    assert (Hkm : inject_Z k * m <= b) by (rewrite Qle_minus_iff; exact Hk0).
    assert (Hkq : inject_Z k <= b / m) by (apply Qle_shift_div_l; assumption).
    apply Qfloor_resp_le in Hkq. rewrite Qfloor_Z in Hkq.
    assert (Hle : inject_Z k * m <= inject_Z (Qfloor (b / m)) * m).
    { apply Qmult_le_compat_r; [|apply Qlt_le_weak, Hm].
      rewrite <- Zle_Qle. exact Hkq. }
    rewrite Hr. eapply Qle_trans; [|exact Hk].
    apply Qplus_le_r, Qopp_le_compat, Hle.
Qed.

(** A length that exceeds a multiple by at most the tolerance is within
    the tolerance of it; the converse fails (see [C5] below). *)
Lemma exceeds_near_multiple b m tol :
  exceeds_multiple b m tol -> near_multiple b m tol.
Proof.
  intros (k & H0 & H). exists k. rewrite Qabs_pos; assumption.
Qed.

End RemainderFacts.

(** ** Statements about the resolver *)

Import SortFacts ResolverFacts RemainderFacts.

(** C3.  For a vertex set that the validation accepts (and a positive
    tolerance), the resolver either returns exactly half as many faces as
    there are vertices or raises the face-count exception; it returns no
    face set of another size. *)
Theorem C3_face_count wrap verts r0 box flatside tol :
  0 < tol ->
  check_hex_lattice wrap verts r0 box flatside tol = Ok tt ->
  (exists faces,
     hex_verts2faces wrap verts r0 box flatside tol = Ok faces /\
     (2 * length faces = length verts)%nat) \/
  (exists n_faces,
     hex_verts2faces wrap verts r0 box flatside tol =
       Raise (FaceCount n_faces (length verts)) /\
     (2 * n_faces <> length verts)%nat).
Proof.
  intros Htol Hcheck.
  destruct (hex_verts2faces_total wrap verts r0 box flatside tol Htol Hcheck)
    as [(faces & H) | H]; [left | right; exact H].
  exists faces. split; [exact H|].
  apply hex_verts2faces_Ok in H as (_ & p & unsorted & _ & -> & Hlen & _).
  rewrite take_lexsort_length. exact Hlen.
Qed.

Lemma C3_face_count_witness :
  0 < Examples.tol1 /\
  check_hex_lattice wrap_ortho Examples.verts_flat 1 Examples.box1 "x" Examples.tol1
    = Ok tt /\
  ((exists faces,
      hex_verts2faces wrap_ortho Examples.verts_flat 1 Examples.box1 "x"
        Examples.tol1 = Ok faces /\
      (2 * length faces = length Examples.verts_flat)%nat) \/
   (exists n_faces,
      hex_verts2faces wrap_ortho Examples.verts_flat 1 Examples.box1 "x"
        Examples.tol1 = Raise (FaceCount n_faces (length Examples.verts_flat)) /\
      (2 * n_faces <> length Examples.verts_flat)%nat)).
Proof.
  split; [reflexivity|]. split; [vm_compute; reflexivity|].
  apply (C3_face_count wrap_ortho Examples.verts_flat 1 Examples.box1 "x"
           Examples.tol1); [reflexivity | vm_compute; reflexivity].
Defined.

(** C5.  The validation does not accept every box whose length along the
    flat side is within the tolerance of an integer multiple of
    [3 * r0]: the x length [5.9995] is within [0.001] of [2 * 3] and the y
    length is a multiple of [sqrt3], yet the validation raises the
    periodicity exception for x, while it accepts the x length
    [6.0005]. *)
Theorem C5_box_below_multiple_rejected :
  near_multiple (lx Examples.box_short) (1 * 3) Examples.tol1 /\
  near_multiple (ly Examples.box_short) (1 * sqrt3) Examples.tol1 /\
  check_hex_lattice wrap_ortho Examples.verts_flat 1 Examples.box_short "x"
    Examples.tol1 = Raise (NotPeriodic "x") /\
  check_hex_lattice wrap_ortho Examples.verts_flat 1 Examples.box_long "x"
    Examples.tol1 = Ok tt.
Proof.
  split; [exists 2%Z; apply Qle_bool_iff; reflexivity|].
  split; [exists 1%Z; apply Qle_bool_iff; reflexivity|].
  split; vm_compute; reflexivity.
Qed.

(** C6 as stated fails: for the flat side ["z"] and a vertex set that is
    not flat, the resolver raises the flatness exception, not the
    exception for the flat side. *)
Lemma C6_counterexample :
  hex_verts2faces wrap_ortho Examples.verts_steep 1 Examples.box1 "z"
    Examples.tol1 = Raise NotFlat /\
  hex_verts2faces wrap_ortho Examples.verts_steep 1 Examples.box1 "z"
    Examples.tol1 <> Raise (BadFlatside "z").
Proof.
  assert (H : hex_verts2faces wrap_ortho Examples.verts_steep 1 Examples.box1 "z"
                Examples.tol1 = Raise NotFlat) by (vm_compute; reflexivity).
  split; [exact H|]. rewrite H. discriminate.
Qed.

(** C6, amended.  For a flat side other than ["x"] and ["y"] and a
    non-empty vertex set whose wrapped heights pass the flatness check, the
    validation and the resolver raise the exception that carries the
    offending flat side. *)
Theorem C6_bad_flatside wrap verts r0 box flatside tol v0 :
  flatside <> "x"%string ->
  flatside <> "y"%string ->
  nth_error (apply_PBC wrap verts box) 0 = Some v0 ->
  Np.allclose (map pz (apply_PBC wrap verts box)) (pz v0) tol = true ->
  check_hex_lattice wrap verts r0 box flatside tol = Raise (BadFlatside flatside) /\
  hex_verts2faces wrap verts r0 box flatside tol = Raise (BadFlatside flatside).
Proof.
  intros Hx Hy Hv0 Hflat.
  assert (H : check_hex_lattice wrap verts r0 box flatside tol =
              Raise (BadFlatside flatside)).
  { unfold check_hex_lattice, Np.index. rewrite Hv0. cbn [bind]. rewrite Hflat.
    apply String.eqb_neq in Hx, Hy. rewrite Hx, Hy. reflexivity. }
  split; [exact H|]. unfold hex_verts2faces. rewrite H. reflexivity.
Qed.

Lemma C6_bad_flatside_witness :
  check_hex_lattice wrap_ortho Examples.verts_flat 1 Examples.box1 "z"
    Examples.tol1 = Raise (BadFlatside "z") /\
  hex_verts2faces wrap_ortho Examples.verts_flat 1 Examples.box1 "z"
    Examples.tol1 = Raise (BadFlatside "z").
Proof.
  apply (C6_bad_flatside wrap_ortho Examples.verts_flat 1 Examples.box1 "z"
           Examples.tol1 (wrap_ortho Examples.box1 (mkPos 0 0 1))).
  - discriminate.
  - discriminate.
  - reflexivity.
  - vm_compute. reflexivity.
Defined.

(** C7.  The faces returned by the resolver are sorted in lexicographic
    order, x first, then y, then z: each face is below every later one. *)
Theorem C7_faces_sorted wrap verts r0 box flatside tol faces :
  hex_verts2faces wrap verts r0 box flatside tol = Ok faces ->
  StronglySorted lex_le faces.
Proof.
  intros H. apply hex_verts2faces_Ok in H as (_ & p & unsorted & _ & -> & _).
  apply take_lexsort_sorted.
Qed.

Lemma C7_faces_sorted_witness :
  hex_verts2faces wrap_ortho Examples.verts_flat 1 Examples.box1 "x" Examples.tol1
    = Ok Examples.faces_flat /\
  StronglySorted lex_le Examples.faces_flat.
Proof.
  split; [vm_compute; reflexivity|].
  apply (C7_faces_sorted wrap_ortho Examples.verts_flat 1 Examples.box1 "x"
           Examples.tol1 Examples.faces_flat).
  vm_compute. reflexivity.
Defined.

(** The shifted centers are the centers with [z_shift] added to z. *)
Lemma shift_centers_In z_shift faces c :
  In c (shift_centers z_shift faces) <->
  exists f, In f faces /\ c = add_z z_shift f.
Proof.
  unfold shift_centers. rewrite in_map_iff. split; intros (f & H1 & H2); eauto.
Qed.

(** The resolver returns at least one face. *)
Lemma hex_verts2faces_nonempty wrap verts r0 box flatside tol faces :
  hex_verts2faces wrap verts r0 box flatside tol = Ok faces -> faces <> [].
Proof.
  intros H. apply hex_verts2faces_Ok in H as (Hcheck & p & unsorted & _ & -> & Hlen & _).
  apply check_hex_lattice_nonempty in Hcheck.
  intros E. apply (f_equal (@length Pos)) in E.
  rewrite take_lexsort_length in E. simpl in E.
  destruct verts; [congruence | simpl in Hlen; lia].
Qed.

(** C8 as stated fails: the lattice [verts_rough] passes the validation
    with heights within the tolerance of each other, the resolver returns
    two faces whose rounded heights differ, and after the shift the second
    candidate is not at the height of the first. *)
Lemma C8_counterexample :
  hex_verts2faces wrap_ortho Examples.verts_rough 1 Examples.box1 "x"
    Examples.tol1 = Ok Examples.faces_rough /\
  exists z, z_pos_of (shift_centers 2 Examples.faces_rough) = Ok z /\
    exists c, In c (shift_centers 2 Examples.faces_rough) /\ ~ pz c == z.
Proof.
  split; [vm_compute; reflexivity|].
  eexists. split; [reflexivity|].
  exists (add_z 2 (mkPos (2000 # 1000) (0 # 1000) (1000 # 1000))).
  split; [simpl; auto|]. intros H. vm_compute in H. discriminate H.
Qed.

(** Rounding and the wrapping of a coordinate give equal results on
    equal numbers. *)
Lemma rint_comp q q' : q == q' -> Np.rint q = Np.rint q'.
Proof.
  intros E. unfold Np.rint.
  assert (Ef : Qfloor q = Qfloor q') by (rewrite E; reflexivity).
  rewrite Ef.
  assert (Ec : Qcompare (q - inject_Z (Qfloor q')) (1 # 2) =
               Qcompare (q' - inject_Z (Qfloor q')) (1 # 2))
    by (rewrite E; reflexivity).
  rewrite Ec. reflexivity.
Qed.

Lemma round_comp x x' decimals : x == x' -> Np.round x decimals == Np.round x' decimals.
Proof.
  intros E. unfold Np.round. destruct (0 <=? decimals)%Z.
  - rewrite (rint_comp (x * Np.pow10 decimals) (x' * Np.pow10 decimals))
      by (rewrite E; reflexivity).
    reflexivity.
  - rewrite (rint_comp (x / Np.pow10 (- decimals)) (x' / Np.pow10 (- decimals)))
      by (rewrite E; reflexivity).
    reflexivity.
Qed.

Lemma wrap1_comp l x x' : x == x' -> wrap1 l x == wrap1 l x'.
Proof.
  intros E. unfold wrap1. destruct (Qeq_bool l 0); [exact E|].
  assert (Ef : Qfloor (x / l) = Qfloor (x' / l)) by (rewrite E; reflexivity).
  rewrite Ef, E. reflexivity.
Qed.

(** The wrapped height of a position in an orthorhombic box depends on
    its height only. *)
Lemma wrap_ortho_height box p q :
  pz p == pz q -> pz (wrap_ortho box p) == pz (wrap_ortho box q).
Proof. intros E. simpl. apply wrap1_comp, E. Qed.

(** The heights of the returned faces, for vertices of one height and a
    wrapping whose wrapped height depends on the height only. *)
Lemma faces_one_height wrap verts r0 box flatside tol faces :
  (forall p q, pz p == pz q -> pz (wrap box p) == pz (wrap box q)) ->
  (forall v w, In v verts -> In w verts -> pz v == pz w) ->
  hex_verts2faces wrap verts r0 box flatside tol = Ok faces ->
  forall f g, In f faces -> In g faces -> pz f == pz g.
Proof.
  intros Hwrap Hflat H f g Hf Hg.
  apply hex_verts2faces_Ok in H as (_ & p & unsorted & _ & -> & _ & Hfrom).
  apply (Permutation_in _ (take_lexsort_Permutation _)) in Hf, Hg.
  destruct (Hfrom f Hf) as (v & Hv & ->). destruct (Hfrom g Hg) as (w & Hw & ->).
  simpl. apply round_comp, Hwrap.
  assert (Hadd : forall a, pz (add_flat flatside r0 a) = pz a)
    by (intros a; unfold add_flat; destruct (String.eqb flatside "x"); reflexivity).
  rewrite !Hadd. apply Hwrap, Hflat; assumption.
Qed.

(** C8, amended.  When the vertices all have exactly the same height
    (and the wrapped height of a position depends on its height only, as it
    does for the periodic box), the candidates obtained by shifting the
    faces returned by the resolver all have the same height, and it is the
    height [z_pos] of the first candidate. *)
Theorem C8_candidates_share_z wrap verts r0 box flatside tol faces z_shift :
  (forall p q, pz p == pz q -> pz (wrap box p) == pz (wrap box q)) ->
  (forall v w, In v verts -> In w verts -> pz v == pz w) ->
  hex_verts2faces wrap verts r0 box flatside tol = Ok faces ->
  exists z, z_pos_of (shift_centers z_shift faces) = Ok z /\
    forall c, In c (shift_centers z_shift faces) -> pz c == z.
Proof.
  intros Hwrap Hflat H.
  pose proof (faces_one_height _ _ _ _ _ _ _ Hwrap Hflat H) as Hfaces.
  apply hex_verts2faces_nonempty in H.
  destruct faces as [|f0 faces]; [congruence|].
  exists (pz (add_z z_shift f0)). split; [reflexivity|].
  intros c Hc. apply shift_centers_In in Hc as (f & Hf & ->). simpl.
  rewrite (Hfaces f f0 Hf (or_introl eq_refl)). reflexivity.
Qed.

Lemma C8_candidates_share_z_witness :
  (forall v w, In v Examples.verts_flat -> In w Examples.verts_flat -> pz v == pz w) /\
  hex_verts2faces wrap_ortho Examples.verts_flat 1 Examples.box1 "x" Examples.tol1
    = Ok Examples.faces_flat /\
  exists z, z_pos_of (shift_centers 2 Examples.faces_flat) = Ok z /\
    forall c, In c (shift_centers 2 Examples.faces_flat) -> pz c == z.
Proof.
  assert (Hflat : forall v w, In v Examples.verts_flat ->
            In w Examples.verts_flat -> pz v == pz w).
  { intros v w [<- | [<- | [<- | [<- | []]]]] [<- | [<- | [<- | [<- | []]]]];
      reflexivity. }
  split; [exact Hflat|]. split; [vm_compute; reflexivity|].
  apply (C8_candidates_share_z wrap_ortho Examples.verts_flat 1 Examples.box1 "x"
           Examples.tol1 Examples.faces_flat 2).
  - apply wrap_ortho_height.
  - exact Hflat.
  - vm_compute. reflexivity.
Defined.

(** * Further properties of the selector *)

Module SelectorExtras.

(** A suitable center of a computed suitable set is a row of the distance
    matrix without a distance within [sigma_Li]. *)
Lemma suitable_qualified dists s r ixs i :
  suitable_ixs dists s r = Ok ixs -> In i ixs -> qualified dists s i.
Proof.
  intros Hixs Hin. destruct (suitable_ixs_Ok _ _ _ _ Hixs) as (m & _ & Hiff).
  destruct (proj1 (Hiff i) Hin) as (_ & Ht). apply too_close_false_iff, Ht.
Qed.

Lemma flatnonzero_from_sorted v : forall k,
  StronglySorted lt (flatnonzero_from k v) /\
  Forall (fun i => (k <= i)%nat) (flatnonzero_from k v).
Proof.
  induction v as [|b v IH]; intros k; simpl.
  - split; constructor.
  - destruct (IH (S k)) as (Hs & Hge).
    assert (Hge' : Forall (fun i => (k <= i)%nat) (flatnonzero_from (S k) v)).
    { eapply Forall_impl; [|exact Hge]. simpl. intros; lia. }
    destruct b; [|auto]. split.
    + constructor; [exact Hs|]. eapply Forall_impl; [|exact Hge]. simpl. intros; lia.
    + constructor; [lia | exact Hge'].
Qed.

Lemma StronglySorted_filter {A : Type} (R : A -> A -> Prop) (f : A -> bool) l :
  StronglySorted R l -> StronglySorted R (filter f l).
Proof.
  induction 1 as [|a l Hl IH Ha]; simpl; [constructor|].
  destruct (f a); [|exact IH]. constructor; [exact IH|].
  apply Forall_forall. intros x Hx. apply filter_In in Hx as (Hx & _).
  rewrite Forall_forall in Ha. auto.
Qed.

Lemma StronglySorted_lt_NoDup l : StronglySorted lt l -> NoDup l.
Proof.
  induction 1 as [|a l Hl IH Ha]; constructor; [|exact IH].
  intros Hin. rewrite Forall_forall in Ha. specialize (Ha a Hin). lia.
Qed.

(** The suitable set is listed in strictly increasing index order. *)
Lemma suitable_ixs_sorted dists s r ixs :
  suitable_ixs dists s r = Ok ixs -> StronglySorted lt ixs.
Proof.
  unfold suitable_ixs. intros H. apply bind_Ok in H as (m & _ & H).
  injection H as <-. unfold setdiff1d. apply StronglySorted_filter.
  apply flatnonzero_from_sorted.
Qed.

Lemma suitable_ixs_range dists s r ixs i :
  suitable_ixs dists s r = Ok ixs -> In i ixs -> (i < length dists)%nat.
Proof.
  intros Hixs Hin. destruct (suitable_qualified _ _ _ _ _ Hixs Hin) as (row & Hrow & _).
  apply nth_error_Some. congruence.
Qed.

(** A center with no neighbor within the cutoff has no nearest
    neighbor. *)
Lemma nearest_dist_zero_count dists r i :
  nth_error (count_neighbors dists r) i = Some 0%nat ->
  nearest_dist dists r i = Raise ZeroSizeReduction.
Proof.
  rewrite count_nth. unfold nearest_dist, index, contacts. rewrite nth_error_map.
  destruct (nth_error dists i) as [row|]; simpl; [|discriminate].
  intros H. injection H as H. rewrite count_true_map in H.
  rewrite compress_map_filter.
  destruct (filter (fun d => Qle_bool d r) row); [reflexivity | discriminate].
Qed.

Lemma nearest_dist_positive_count dists r i d :
  nearest_dist dists r i = Ok d ->
  exists n, nth_error (count_neighbors dists r) i = Some (S n).
Proof.
  intros H. apply nearest_dist_Ok in H as (row & Hrow & H).
  rewrite count_nth, Hrow. simpl. rewrite count_true_map.
  destruct (filter (fun d => Qle_bool d r) row); [discriminate | simpl; eauto].
Qed.

(** The model's nearest-neighbor distance is a nearest-neighbor distance
    of the row, and every nearest-neighbor distance of the row is at most
    it. *)
Lemma nearest_dist_nearest dists r i d :
  nearest_dist dists r i = Ok d -> nearest_neighbor dists r i d.
Proof. intros H. apply nearest_dist_bounds in H. exact H. Qed.

Lemma nearest_neighbor_dist dists r i d :
  nearest_neighbor dists r i d ->
  exists d0, nearest_dist dists r i = Ok d0 /\ d <= d0 /\ d0 <= d.
Proof.
  intros (row & Hrow & Hin & Hle & Hleast).
  assert (Hf : In d (filter (fun d => Qle_bool d r) row))
    by (apply filter_In; split; [exact Hin | apply Qle_bool_iff, Hle]).
  destruct (min_total (filter (fun d => Qle_bool d r) row)) as (d0 & Hd0).
  { intros E. rewrite E in Hf. exact Hf. }
  exists d0. split; [apply nearest_dist_Ok; eauto|].
  apply min_Ok in Hd0 as (Hin0 & Hmin). apply filter_In in Hin0 as (Hin0 & Hle0).
  split; [apply Hleast; [exact Hin0 | apply Qle_bool_iff, Hle0] | apply Hmin, Hf].
Qed.

Lemma count_within_pos r row n d :
  count_within r row n -> In d row -> d <= r -> exists n', n = S n'.
Proof.
  induction 1 as [|d1 row n Hd1 _ IH|d1 row n Hd1 _ IH]; intros Hin Hle.
  - destruct Hin.
  - eauto.
  - destruct Hin as [-> | Hin]; [|auto].
    exfalso. exact (Qlt_not_le _ _ Hd1 Hle).
Qed.

Lemma StronglySorted_lt_nth l : StronglySorted lt l ->
  forall j k a b, (j < k)%nat -> nth_error l j = Some a -> nth_error l k = Some b ->
    (a < b)%nat.
Proof.
  induction 1 as [|x l Hl IH Hx]; intros j k a b Hjk Ha Hb.
  - destruct j; discriminate.
  - destruct k as [|k]; [lia|]. simpl in Hb. destruct j as [|j]; simpl in Ha.
    + injection Ha as <-. rewrite Forall_forall in Hx.
      apply Hx. eapply nth_error_In. exact Hb.
    + apply (IH j k); [lia | assumption | assumption].
Qed.

(** In a strictly increasing list a smaller entry stands at an earlier
    place. *)
Lemma StronglySorted_lt_place l j k a b :
  StronglySorted lt l -> nth_error l j = Some a -> nth_error l k = Some b ->
  (a < b)%nat -> (j < k)%nat.
Proof.
  intros Hs Ha Hb Hab. destruct (Nat.lt_trichotomy j k) as [H | [H | H]]; [exact H | |].
  - subst k. assert (a = b) by congruence. lia.
  - pose proof (StronglySorted_lt_nth l Hs k j b a H Hb Ha). lia.
Qed.

(** The computed suitable set holds exactly the suitable centers. *)
Lemma suitable_ixs_suitable dists s r ixs :
  suitable_ixs dists s r = Ok ixs ->
  forall i, In i ixs <-> suitable_center dists s r i.
Proof.
  intros Hixs i. destruct (suitable_ixs_Ok _ _ _ _ Hixs) as (m & Hm & Hiff).
  destruct (min_neighbors_Ok _ _ _ _ Hm) as ((i0 & Ht0 & Hc0) & Hmin).
  rewrite Hiff. unfold suitable_center. split.
  - intros (Hc & Ht). split; [apply too_close_false_iff, Ht|].
    exists m. split; [apply neighbor_count_iff, Hc|].
    intros j n' Hq Hn. apply (Hmin j n');
      [apply too_close_false_iff, Hq | apply neighbor_count_iff, Hn].
  - intros (Hq & n & Hn & Hleast).
    assert (Hmn : (m <= n)%nat).
    { apply (Hmin i n); [apply too_close_false_iff, Hq | apply neighbor_count_iff, Hn]. }
    assert (Hnm : (n <= m)%nat).
    { apply (Hleast i0 m); [apply too_close_false_iff, Ht0 | apply neighbor_count_iff, Hc0]. }
    assert (n = m) by lia. subst n.
    split; [apply neighbor_count_iff, Hn | apply too_close_false_iff, Hq].
Qed.

End SelectorExtras.

Import SelectorExtras.

(** X1.  When some center is not disqualified, every suitable center
    has an atom within [r_cut], and there is a position for every row of
    the distance matrix, the selection returns.  Its list of suitable
    centers holds exactly the centers that are not disqualified and have
    the least number of atoms within [r_cut] among those; the best center
    is the suitable center with the largest distance to its nearest atom,
    the one of least index among several, and the insertion point is its
    position. *)
Theorem X1_select_returns_best hex_centers dists sigma_Li r_cut :
  (exists i, qualified dists sigma_Li i) ->
  (forall i, suitable_center dists sigma_Li r_cut i ->
     exists d, nearest_neighbor dists r_cut i d) ->
  length hex_centers = length dists ->
  exists sel d,
    select hex_centers dists sigma_Li r_cut = Ok sel /\
    (forall i, In i (hex_ixs sel) <-> suitable_center dists sigma_Li r_cut i) /\
    suitable_center dists sigma_Li r_cut (hex_ix_best sel) /\
    nearest_neighbor dists r_cut (hex_ix_best sel) d /\
    nth_error hex_centers (hex_ix_best sel) = Some (insertion_point sel) /\
    (forall i d', suitable_center dists sigma_Li r_cut i ->
       nearest_neighbor dists r_cut i d' ->
       d' <= d /\ ((i < hex_ix_best sel)%nat -> d' < d)).
Proof.
  intros Hsome Hnear Hlen. apply exists_qualified_iff in Hsome as Hall.
  destruct (suitable_ixs_total dists sigma_Li r_cut Hall) as (ixs & Hixs).
  pose proof (suitable_ixs_suitable _ _ _ _ Hixs) as Hsuit.
  destruct (min_neighbors_total dists sigma_Li r_cut Hall) as (m & Hm).
  destruct (min_neighbors_Ok _ _ _ _ Hm) as ((i0 & Ht0 & Hc0) & _).
  assert (Hi0 : suitable_center dists sigma_Li r_cut i0).
  { apply Hsuit. destruct (suitable_ixs_Ok _ _ _ _ Hixs) as (m' & Hm' & Hiff).
    apply Hiff. split; [congruence | exact Ht0]. }
  destruct (Hnear i0 Hi0) as (d0 & row & Hrow & Hin & Hle & _).
  assert (Hany : any (contacts dists r_cut) = true).
  { apply any_contacts_iff. exists row, d0.
    split; [eapply nth_error_In; exact Hrow | auto]. }
  assert (Hpos : exists m', m = S m').
  { apply neighbor_count_iff in Hc0 as (row' & Hrow' & Hcount).
    assert (row' = row) by congruence. subst row'.
    eapply count_within_pos; eassumption. }
  destruct Hpos as (m' & ->).
  destruct (select_total hex_centers dists sigma_Li r_cut m' Hany Hall Hm Hlen)
    as (sel & Hsel).
  destruct (select_best_first_argmax _ _ _ _ _ Hsel)
    as (k & d & Hk & Hd & Hp & Hmax & Hfirst).
  apply select_Ok in Hsel as Hparts.
  destruct Hparts as (_ & _ & _ & Hixs' & _).
  assert (ixs = hex_ixs sel) by congruence. subst ixs.
  exists sel, d. split; [exact Hsel|]. split; [exact Hsuit|].
  split; [apply Hsuit; eapply nth_error_In; exact Hk|].
  split; [apply nearest_dist_nearest, Hd|]. split; [exact Hp|].
  intros i d' Hi Hd'. apply Hsuit in Hi. apply In_nth_error in Hi as (j & Hj).
  destruct (nearest_neighbor_dist _ _ _ _ Hd') as (d1 & Hd1 & Hle1 & _).
  split.
  - eapply Qle_trans; [exact Hle1 | eapply Hmax; eassumption].
  - intros Hlt. eapply Qle_lt_trans; [exact Hle1|].
    apply (Hfirst j i d1); [|exact Hj | exact Hd1].
    eapply StronglySorted_lt_place; [eapply suitable_ixs_sorted; exact Hixs | | |];
      eassumption.
Qed.

Lemma X1_select_returns_best_witness :
  exists sel d,
    select Examples.centers2 Examples.dists_multi 2 8 = Ok sel /\
    (forall i, In i (hex_ixs sel) <-> suitable_center Examples.dists_multi 2 8 i) /\
    suitable_center Examples.dists_multi 2 8 (hex_ix_best sel) /\
    nearest_neighbor Examples.dists_multi 8 (hex_ix_best sel) d /\
    nth_error Examples.centers2 (hex_ix_best sel) = Some (insertion_point sel) /\
    (forall i d', suitable_center Examples.dists_multi 2 8 i ->
       nearest_neighbor Examples.dists_multi 8 i d' ->
       d' <= d /\ ((i < hex_ix_best sel)%nat -> d' < d)).
Proof.
  apply (X1_select_returns_best Examples.centers2 Examples.dists_multi 2 8).
  - exists 0%nat, [7; 3]. split; [reflexivity|].
    intros d [<- | [<- | []]]; reflexivity.
  - intros [|[|i]] ((row & Hrow & _) & _).
    + exists 3, [7; 3]. split; [reflexivity|]. split; [simpl; auto|].
      split; [discriminate|]. intros d' [<- | [<- | []]] _; discriminate.
    + exists 4, [4; 5]. split; [reflexivity|]. split; [simpl; auto|].
      split; [discriminate|]. intros d' [<- | [<- | []]] _; discriminate.
    + destruct i; discriminate Hrow.
  - reflexivity.
Defined.

(** The selection on [dists_multi]: the nearest atoms are at 3 and at 4,
    and the second center is the best. *)
Lemma select_dists_multi :
  select Examples.centers2 Examples.dists_multi 2 8 =
    Ok (mkSelection [2; 2]%nat [0; 1]%nat [3; 4] 1%nat (mkPos 2 0 1)).
Proof. reflexivity. Qed.

(** X2.  With a position for every row of the distance matrix, the
    selection raises the zero-size reduction exception of [np.min] exactly
    when both checks pass and some center that is not disqualified has no
    neighbor within [r_cut]; it never raises an index exception. *)
Theorem X2_select_zero_size hex_centers dists sigma_Li r_cut :
  length hex_centers = length dists ->
  (select hex_centers dists sigma_Li r_cut = Raise ZeroSizeReduction <->
     any (contacts dists r_cut) = true /\
     all (too_close_mask dists sigma_Li) = false /\
     min_neighbors dists sigma_Li r_cut = Ok 0%nat) /\
  select hex_centers dists sigma_Li r_cut <> Raise IndexError.
Proof.
  intros Hlen.
  assert (Hzero : any (contacts dists r_cut) = true ->
            all (too_close_mask dists sigma_Li) = false ->
            min_neighbors dists sigma_Li r_cut = Ok 0%nat ->
            select hex_centers dists sigma_Li r_cut = Raise ZeroSizeReduction).
  { intros Hany Hall Hm. rewrite (select_passed _ _ _ _ Hany Hall).
    destruct (suitable_ixs_nonempty dists sigma_Li r_cut Hall) as (ixs & Hixs & Hne).
    rewrite Hixs. cbn [bind].
    destruct (suitable_ixs_Ok _ _ _ _ Hixs) as (m' & Hm' & Hiff).
    assert (m' = 0%nat) by congruence. subst m'.
    destruct ixs as [|i ixs]; [congruence|]. simpl negb. cbv iota.
    assert (Hi : nearest_dist dists r_cut i = Raise ZeroSizeReduction).
    { apply nearest_dist_zero_count, Hiff. left. reflexivity. }
    simpl mapM. rewrite Hi. reflexivity. }
  assert (Hcases : forall e, select hex_centers dists sigma_Li r_cut = Raise e ->
            e = ZeroSizeReduction \/ e = IndexError ->
            any (contacts dists r_cut) = true /\
            all (too_close_mask dists sigma_Li) = false /\
            min_neighbors dists sigma_Li r_cut = Ok 0%nat).
  { intros e He Hor.
    apply select_Raise in He as Hr.
    destruct Hr as [(-> & _) | [(-> & _) | (_ & Hany & Hall)]];
      [destruct Hor; discriminate | destruct Hor; discriminate |].
    split; [exact Hany|]. split; [exact Hall|].
    destruct (min_neighbors_total dists sigma_Li r_cut Hall) as ([|m] & Hm);
      [exact Hm|].
    destruct (select_total hex_centers dists sigma_Li r_cut m Hany Hall Hm Hlen)
      as (sel & Hsel). congruence. }
  split.
  - split.
    + intros H. apply (Hcases _ H). auto.
    + intros (Hany & Hall & Hm). auto.
  - intros H. destruct (Hcases _ H) as (Hany & Hall & Hm); [auto|].
    rewrite (Hzero Hany Hall Hm) in H. discriminate.
Qed.

Lemma X2_select_zero_size_witness :
  (select Examples.centers2 Examples.dists_lonely 2 5 = Raise ZeroSizeReduction <->
     any (contacts Examples.dists_lonely 5) = true /\
     all (too_close_mask Examples.dists_lonely 2) = false /\
     min_neighbors Examples.dists_lonely 2 5 = Ok 0%nat) /\
  select Examples.centers2 Examples.dists_lonely 2 5 <> Raise IndexError.
Proof.
  apply (X2_select_zero_size Examples.centers2 Examples.dists_lonely 2 5).
  reflexivity.
Defined.

(** X3.  A successful selection lists the suitable centers in strictly
    increasing index order, every index is a row of the distance matrix,
    and the best center stands at exactly one place of the list (so the
    report marks exactly one line as the insertion point). *)
Theorem X3_suitable_list_order hex_centers dists sigma_Li r_cut sel :
  select hex_centers dists sigma_Li r_cut = Ok sel ->
  StronglySorted lt (hex_ixs sel) /\
  (forall i, In i (hex_ixs sel) -> (i < length dists)%nat) /\
  exists k, nth_error (hex_ixs sel) k = Some (hex_ix_best sel) /\
    forall k', nth_error (hex_ixs sel) k' = Some (hex_ix_best sel) -> k' = k.
Proof.
  intros H. apply select_Ok in H as (_ & _ & _ & Hixs & _ & k & _ & Hk & _).
  pose proof (suitable_ixs_sorted _ _ _ _ Hixs) as Hsorted.
  split; [exact Hsorted|]. split.
  - intros i Hi. eapply suitable_ixs_range; eassumption.
  - exists k. split; [exact Hk|]. intros k' Hk'.
    apply StronglySorted_lt_NoDup in Hsorted.
    rewrite NoDup_nth_error in Hsorted. apply Hsorted; [|congruence].
    apply nth_error_Some. congruence.
Qed.

Lemma X3_suitable_list_order_witness :
  select Examples.centers3 Examples.dists3 2 8 = Ok Examples.sel3 /\
  StronglySorted lt (hex_ixs Examples.sel3) /\
  (forall i, In i (hex_ixs Examples.sel3) -> (i < length Examples.dists3)%nat) /\
  exists k, nth_error (hex_ixs Examples.sel3) k = Some (hex_ix_best Examples.sel3) /\
    forall k', nth_error (hex_ixs Examples.sel3) k' =
                 Some (hex_ix_best Examples.sel3) -> k' = k.
Proof.
  split; [reflexivity|].
  apply (X3_suitable_list_order Examples.centers3 Examples.dists3 2 8 Examples.sel3).
  reflexivity.
Defined.

(** X4.  In a successful selection the best center and every suitable
    center have the same number of neighbors, the least count of the
    centers that are not disqualified, and this number (written to the
    report as the number of neighbors) is at least one. *)
Theorem X4_reported_neighbor_count hex_centers dists sigma_Li r_cut sel :
  select hex_centers dists sigma_Li r_cut = Ok sel ->
  exists m,
    min_neighbors dists sigma_Li r_cut = Ok (S m) /\
    nth_error (n_neighbors sel) (hex_ix_best sel) = Some (S m) /\
    forall i, In i (hex_ixs sel) -> nth_error (n_neighbors sel) i = Some (S m).
Proof.
  intros H.
  destruct (select_best_first_argmax _ _ _ _ _ H) as (k & d & Hk & Hd & _).
  apply select_Ok in H as (_ & _ & Hn & Hixs & _).
  destruct (suitable_ixs_Ok _ _ _ _ Hixs) as (m & Hm & Hiff).
  assert (Hbest : nth_error (count_neighbors dists r_cut) (hex_ix_best sel) = Some m).
  { apply Hiff. eapply nth_error_In. exact Hk. }
  destruct (nearest_dist_positive_count _ _ _ _ Hd) as (n & Hpos).
  assert (m = S n) by congruence. subst m.
  exists n. rewrite Hn. split; [exact Hm|]. split; [exact Hbest|].
  intros i Hi. apply Hiff, Hi.
Qed.

Lemma X4_reported_neighbor_count_witness :
  select Examples.centers3 Examples.dists3 2 8 = Ok Examples.sel3 /\
  exists m,
    min_neighbors Examples.dists3 2 8 = Ok (S m) /\
    nth_error (n_neighbors Examples.sel3) (hex_ix_best Examples.sel3) = Some (S m) /\
    forall i, In i (hex_ixs Examples.sel3) ->
      nth_error (n_neighbors Examples.sel3) i = Some (S m).
Proof.
  split; [reflexivity|].
  apply (X4_reported_neighbor_count Examples.centers3 Examples.dists3 2 8
           Examples.sel3).
  reflexivity.
Defined.

(** X5.  The selection returns only when [sigma_Li < r_cut]: with a
    cutoff [r_cut] at or below [sigma_Li] it raises for every input. *)
Theorem X5_select_needs_larger_cutoff hex_centers dists sigma_Li r_cut sel :
  select hex_centers dists sigma_Li r_cut = Ok sel -> sigma_Li < r_cut.
Proof.
  intros H.
  destruct (select_best_first_argmax _ _ _ _ _ H) as (k & d & Hk & Hd & _).
  apply select_Ok in H as (_ & _ & _ & Hixs & _).
  destruct (suitable_qualified _ _ _ _ _ Hixs (nth_error_In _ _ Hk))
    as (row & Hrow & Hfar).
  apply nearest_dist_bounds in Hd as (row' & Hrow' & Hin & Hle & _).
  assert (row' = row) by congruence. subst row'.
  eapply Qlt_le_trans; [apply Hfar, Hin | exact Hle].
Qed.

Lemma X5_select_needs_larger_cutoff_witness :
  select Examples.centers3 Examples.dists3 2 8 = Ok Examples.sel3 /\ 2 < 8.
Proof.
  split; [reflexivity|].
  apply (X5_select_needs_larger_cutoff Examples.centers3 Examples.dists3 2 8
           Examples.sel3).
  reflexivity.
Defined.

(** * Further properties of the resolver *)

Module ResolverExtras.

(** The validity mask: a returned face does not share its flat-side
    coordinate with a rounded wrapped vertex. *)
Lemma hex_verts2faces_valid wrap verts r0 box flatside tol faces :
  hex_verts2faces wrap verts r0 box flatside tol = Ok faces ->
  exists precision,
    ceil_neg_log10 tol = Ok precision /\
    forall f v, In f faces -> In v verts ->
      ~ flat_coord flatside f == round (flat_coord flatside (wrap box v)) precision.
Proof.
  unfold hex_verts2faces. intros H.
  apply bind_Ok in H as ([] & Hcheck & H).
  apply bind_Ok in H as (shifted & Hshift & H).
  apply bind_Ok in H as (p & Hp & H).
  exists p. split; [exact Hp|].
  match type of H with
  | (if (2 * length (compress ?m ?c) =? _)%nat then _ else _) = _ =>
      set (valid := m) in *; set (cand := c) in *
  end.
  destruct (2 * length (compress valid cand) =? _)%nat; [|discriminate].
  injection H as <-. intros f v Hf Hv.
  apply (Permutation_in _ (take_lexsort_Permutation _)) in Hf.
  apply compress_In in Hf as (i & Hvalid & Hcand).
  set (verts' := map (round_pos p) (apply_PBC wrap verts box)) in *.
  assert (Hv' : In (round_pos p (wrap box v)) verts').
  { unfold verts', apply_PBC. rewrite map_map. apply in_map_iff. eauto. }
  assert (Hmask : forall coord : Pos -> Q,
            nth_error (isin_invert (map coord cand) (map coord verts')) i = Some true ->
            ~ coord f == coord (round_pos p (wrap box v))).
  { intros coord Hm. unfold isin_invert in Hm.
    rewrite !nth_error_map, Hcand in Hm. simpl in Hm. injection Hm as Hm.
    apply negb_true_iff in Hm. intros E.
    assert (Hex : existsb (Qeq_bool (coord f)) (map coord verts') = true).
    { apply existsb_exists. exists (coord (round_pos p (wrap box v))).
      split; [apply in_map, Hv' | apply Qeq_bool_iff, E]. }
    congruence. }
  unfold flat_coord. subst valid.
  destruct (String.eqb flatside "x"); apply Hmask in Hvalid; exact Hvalid.
Qed.

End ResolverExtras.

Import ResolverExtras.

(** X7.  For a tolerance that is not negative: every exception that the
    validation raises is raised unchanged by [hex_verts2faces]; after an
    accepted validation with tolerance zero it raises the exception of the
    conversion of the precision; and it raises nothing else but the
    face-count exception. *)
Theorem X7_resolver_exceptions wrap verts r0 box flatside tol :
  0 <= tol ->
  (forall e, check_hex_lattice wrap verts r0 box flatside tol = Raise e ->
     hex_verts2faces wrap verts r0 box flatside tol = Raise e) /\
  (check_hex_lattice wrap verts r0 box flatside tol = Ok tt -> tol == 0 ->
     hex_verts2faces wrap verts r0 box flatside tol = Raise BadPrecision) /\
  (forall e, hex_verts2faces wrap verts r0 box flatside tol = Raise e ->
     check_hex_lattice wrap verts r0 box flatside tol = Raise e \/
     (check_hex_lattice wrap verts r0 box flatside tol = Ok tt /\
      ((e = BadPrecision /\ tol == 0) \/
       (exists n_faces, e = FaceCount n_faces (length verts) /\
          (2 * n_faces <> length verts)%nat)))).
Proof.
  intros Htol.
  assert (Hpass : forall e, check_hex_lattice wrap verts r0 box flatside tol = Raise e ->
            hex_verts2faces wrap verts r0 box flatside tol = Raise e).
  { intros e H. unfold hex_verts2faces. rewrite H. reflexivity. }
  assert (Hzero : check_hex_lattice wrap verts r0 box flatside tol = Ok tt -> tol == 0 ->
            hex_verts2faces wrap verts r0 box flatside tol = Raise BadPrecision).
  { intros Hcheck Hz. unfold hex_verts2faces. rewrite Hcheck. cbn [bind].
    assert (Hp : ceil_neg_log10 tol = Raise BadPrecision).
    { unfold ceil_neg_log10. destruct tol as [n d]. unfold Qeq in Hz.
      simpl in Hz. simpl. destruct n; try reflexivity; lia. }
    rewrite Hp.
    destruct (check_hex_lattice_flatside _ _ _ _ _ _ Hcheck); subst flatside;
      reflexivity. }
  split; [exact Hpass|]. split; [exact Hzero|].
  intros e H.
  destruct (check_hex_lattice wrap verts r0 box flatside tol) as [[]|e'] eqn:Hcheck.
  - right. split; [reflexivity|].
    destruct (Qlt_le_dec 0 tol) as [Hpos | Hneg].
    + right.
      destruct (hex_verts2faces_total wrap verts r0 box flatside tol Hpos Hcheck)
        as [(faces & Hf) | (n & Hn & Hne)]; [congruence|].
      exists n. split; [congruence | exact Hne].
    + left. assert (Hz : tol == 0) by (apply Qle_antisym; assumption).
      split; [|exact Hz]. rewrite (Hzero eq_refl Hz) in H. congruence.
  - left. rewrite (Hpass e' eq_refl) in H. congruence.
Qed.

Lemma X7_resolver_exceptions_witness :
  (forall e, check_hex_lattice wrap_ortho Examples.verts_steep 1 Examples.box1 "x"
               Examples.tol1 = Raise e ->
     hex_verts2faces wrap_ortho Examples.verts_steep 1 Examples.box1 "x"
       Examples.tol1 = Raise e) /\
  (check_hex_lattice wrap_ortho Examples.verts_steep 1 Examples.box1 "x"
     Examples.tol1 = Ok tt -> Examples.tol1 == 0 ->
     hex_verts2faces wrap_ortho Examples.verts_steep 1 Examples.box1 "x"
       Examples.tol1 = Raise BadPrecision) /\
  (forall e, hex_verts2faces wrap_ortho Examples.verts_steep 1 Examples.box1 "x"
               Examples.tol1 = Raise e ->
     check_hex_lattice wrap_ortho Examples.verts_steep 1 Examples.box1 "x"
       Examples.tol1 = Raise e \/
     (check_hex_lattice wrap_ortho Examples.verts_steep 1 Examples.box1 "x"
        Examples.tol1 = Ok tt /\
      ((e = BadPrecision /\ Examples.tol1 == 0) \/
       (exists n_faces, e = FaceCount n_faces (length Examples.verts_steep) /\
          (2 * n_faces <> length Examples.verts_steep)%nat)))).
Proof.
  apply (X7_resolver_exceptions wrap_ortho Examples.verts_steep 1 Examples.box1 "x"
           Examples.tol1).
  discriminate.
Defined.

(** X10.  No face returned by the resolver has the flat-side coordinate
    of a rounded wrapped vertex; in particular no returned face is a
    rounded wrapped vertex. *)
Theorem X10_faces_off_vertex_lines wrap verts r0 box flatside tol faces :
  hex_verts2faces wrap verts r0 box flatside tol = Ok faces ->
  exists precision,
    ceil_neg_log10 tol = Ok precision /\
    (forall f v, In f faces -> In v verts ->
       ~ flat_coord flatside f == round (flat_coord flatside (wrap box v)) precision) /\
    (forall f v, In f faces -> In v verts -> f <> round_pos precision (wrap box v)).
Proof.
  intros H. destruct (hex_verts2faces_valid _ _ _ _ _ _ _ H) as (p & Hp & Hoff).
  exists p. split; [exact Hp|]. split; [exact Hoff|].
  intros f v Hf Hv E. apply (Hoff f v Hf Hv). subst f.
  unfold flat_coord, round_pos. destruct (String.eqb flatside "x"); reflexivity.
Qed.

Lemma X10_faces_off_vertex_lines_witness :
  hex_verts2faces wrap_ortho Examples.verts_flat 1 Examples.box1 "x" Examples.tol1
    = Ok Examples.faces_flat /\
  exists precision,
    ceil_neg_log10 Examples.tol1 = Ok precision /\
    (forall f v, In f Examples.faces_flat -> In v Examples.verts_flat ->
       ~ flat_coord "x" f ==
         round (flat_coord "x" (wrap_ortho Examples.box1 v)) precision) /\
    (forall f v, In f Examples.faces_flat -> In v Examples.verts_flat ->
       f <> round_pos precision (wrap_ortho Examples.box1 v)).
Proof.
  split; [vm_compute; reflexivity|].
  apply (X10_faces_off_vertex_lines wrap_ortho Examples.verts_flat 1
           Examples.box1 "x" Examples.tol1 Examples.faces_flat).
  vm_compute. reflexivity.
Defined.

(** X11.  The resolver never returns faces for an odd number of
    vertices: when the validation accepts them (and the tolerance is
    positive) it raises the face-count exception. *)
Theorem X11_odd_vertex_count wrap verts r0 box flatside tol :
  Nat.odd (length verts) = true ->
  (forall faces, hex_verts2faces wrap verts r0 box flatside tol <> Ok faces) /\
  (0 < tol -> check_hex_lattice wrap verts r0 box flatside tol = Ok tt ->
     exists n_faces,
       hex_verts2faces wrap verts r0 box flatside tol =
         Raise (FaceCount n_faces (length verts))).
Proof.
  intros Hodd.
  assert (Hnever : forall faces,
            hex_verts2faces wrap verts r0 box flatside tol <> Ok faces).
  { intros faces H.
    apply hex_verts2faces_Ok in H as (_ & p & unsorted & _ & _ & Hlen & _).
    rewrite <- Hlen, Nat.odd_mul in Hodd. discriminate. }
  split; [exact Hnever|]. intros Htol Hcheck.
  destruct (hex_verts2faces_total wrap verts r0 box flatside tol Htol Hcheck)
    as [(faces & Hf) | (n & Hn & _)]; [destruct (Hnever faces Hf) | eauto].
Qed.

Lemma X11_odd_vertex_count_witness :
  (forall faces,
     hex_verts2faces wrap_ortho [mkPos 0 0 1] 1 Examples.box1 "x" Examples.tol1
       <> Ok faces) /\
  (0 < Examples.tol1 ->
   check_hex_lattice wrap_ortho [mkPos 0 0 1] 1 Examples.box1 "x" Examples.tol1
     = Ok tt ->
   exists n_faces,
     hex_verts2faces wrap_ortho [mkPos 0 0 1] 1 Examples.box1 "x" Examples.tol1 =
       Raise (FaceCount n_faces (length [mkPos 0 0 1]))).
Proof.
  apply (X11_odd_vertex_count wrap_ortho [mkPos 0 0 1] 1 Examples.box1 "x"
           Examples.tol1).
  reflexivity.
Defined.

(** X12.  After a successful call of the resolver the script's
    [z_pos = hex_centers[0][2]] never raises: there is a first face, it is
    the least face in lexicographic order, and [z_pos] is its height plus
    the shift. *)
Theorem X12_z_pos_after_resolve wrap verts r0 box flatside tol faces z_shift :
  hex_verts2faces wrap verts r0 box flatside tol = Ok faces ->
  exists f0 rest,
    faces = f0 :: rest /\
    z_pos_of (shift_centers z_shift faces) = Ok (pz f0 + z_shift) /\
    forall f, In f faces -> lex_le f0 f.
Proof.
  intros H. pose proof (hex_verts2faces_nonempty _ _ _ _ _ _ _ H) as Hne.
  apply hex_verts2faces_Ok in H as (_ & p & unsorted & _ & Hfaces & _).
  pose proof (take_lexsort_sorted unsorted) as Hsorted. rewrite <- Hfaces in Hsorted.
  destruct faces as [|f0 rest]; [congruence|].
  exists f0, rest. split; [reflexivity|]. split; [reflexivity|].
  apply StronglySorted_inv in Hsorted as (_ & Hall). rewrite Forall_forall in Hall.
  intros f [<- | Hf]; [|apply Hall, Hf].
  right. split; [reflexivity|]. right. split; [reflexivity | apply Qle_refl].
Qed.

Lemma X12_z_pos_after_resolve_witness :
  hex_verts2faces wrap_ortho Examples.verts_flat 1 Examples.box1 "x" Examples.tol1
    = Ok Examples.faces_flat /\
  exists f0 rest,
    Examples.faces_flat = f0 :: rest /\
    z_pos_of (shift_centers 2 Examples.faces_flat) = Ok (pz f0 + 2) /\
    forall f, In f Examples.faces_flat -> lex_le f0 f.
Proof.
  split; [vm_compute; reflexivity|].
  apply (X12_z_pos_after_resolve wrap_ortho Examples.verts_flat 1 Examples.box1 "x"
           Examples.tol1 Examples.faces_flat 2).
  vm_compute. reflexivity.
Defined.

(** * The rest of the script *)

Module BinFacts.

Lemma last_entry_cons {A : Type} (x : A) (c : list A) :
  last_entry (x :: c) = match c with [] => Ok x | _ :: _ => last_entry c end.
Proof. reflexivity. Qed.

Lemma last_entry_Raise {A : Type} (c : list A) e :
  last_entry c = Raise e <-> c = [] /\ e = IndexError.
Proof.
  induction c as [|x c IH].
  - simpl. split; [intros H; injection H as <-; auto | intros (_ & ->); reflexivity].
  - rewrite last_entry_cons. destruct c as [|y c].
    + split; [discriminate | intros (H & _); discriminate].
    + rewrite IH. split; intros (H & _); discriminate.
Qed.

Lemma compress_nil {A : Type} (mask : list bool) (a : list A) :
  length mask = length a ->
  (compress mask a = [] <-> forall j, nth_error mask j <> Some true).
Proof.
  intros Hlen. split.
  - intros E j Hj.
    destruct (nth_error a j) as [y|] eqn:Hy.
    + assert (Hin : In y (compress mask a)) by (apply compress_In; eauto).
      rewrite E in Hin. exact Hin.
    + apply nth_error_None in Hy. rewrite <- Hlen in Hy.
      apply nth_error_None in Hy. congruence.
  - intros H. destruct (compress mask a) as [|y c] eqn:E; [reflexivity|].
    assert (Hin : In y (compress mask a)) by (rewrite E; left; reflexivity).
    apply compress_In in Hin as (i & Hi & _). destruct (H i Hi).
Qed.

(** The last entry that a mask selects is the entry at the last true
    place of the mask. *)
Lemma last_entry_compress {A : Type} (mask : list bool) : forall (a : list A) z,
  length mask = length a ->
  (last_entry (compress mask a) = Ok z <->
   exists i, nth_error mask i = Some true /\ nth_error a i = Some z /\
     forall j, (i < j)%nat -> nth_error mask j <> Some true).
Proof.
  induction mask as [|b mask IH]; intros a z Hlen.
  - simpl. split; [discriminate | intros ([|i] & H & _); discriminate].
  - destruct a as [|x a]; [discriminate|]. simpl in Hlen.
    injection Hlen as Hlen. specialize (IH a z Hlen).
    assert (Hshift : (exists i, nth_error mask i = Some true /\ nth_error a i = Some z /\
                        forall j, (i < j)%nat -> nth_error mask j <> Some true) ->
                     exists i, nth_error (b :: mask) i = Some true /\
                        nth_error (x :: a) i = Some z /\
                        forall j, (i < j)%nat -> nth_error (b :: mask) j <> Some true).
    { intros (i & Hm & Ha & Hlast). exists (S i). split; [exact Hm|].
      split; [exact Ha|]. intros [|j] Hj; [lia|]. simpl. apply Hlast. lia. }
    destruct b; simpl compress.
    + rewrite last_entry_cons.
      destruct (compress mask a) as [|y c] eqn:E.
      * pose proof (proj1 (compress_nil mask a Hlen) E) as Hnone. split.
        -- intros H. injection H as <-. exists 0%nat. split; [reflexivity|].
           split; [reflexivity|]. intros [|j] Hj; [lia|]. simpl. apply Hnone.
        -- intros ([|i] & Hm & Ha & _); [simpl in Ha; congruence|].
           simpl in Hm. destruct (Hnone i Hm).
      * rewrite IH. split; [exact Hshift|].
        intros ([|i] & Hm & Ha & Hlast).
        -- assert (Hin : In y (compress mask a)) by (rewrite E; left; reflexivity).
           apply compress_In in Hin as (j & Hj & _).
           destruct (Hlast (S j)); [lia | exact Hj].
        -- exists i. split; [exact Hm|]. split; [exact Ha|].
           intros j Hj. apply (Hlast (S j)). lia.
    + rewrite IH. split; [exact Hshift|].
      intros ([|i] & Hm & Ha & Hlast); [discriminate|].
      exists i. split; [exact Hm|]. split; [exact Ha|].
      intros j Hj. apply (Hlast (S j)). lia.
Qed.

Lemma positive_mask_nth etrd_dist i :
  nth_error (map (fun d => negb (Qle_bool d 0)) etrd_dist) i = Some true <->
  exists d, nth_error etrd_dist i = Some d /\ 0 < d.
Proof.
  rewrite nth_error_map. destruct (nth_error etrd_dist i) as [d|]; simpl.
  - split.
    + intros H. injection H as H. apply negb_true_iff in H.
      exists d. split; [reflexivity|]. apply Qnot_le_lt.
      rewrite <- Qle_bool_iff. congruence.
    + intros (d' & E & Hd). injection E as <-. f_equal. apply negb_true_iff.
      destruct (Qle_bool d 0) eqn:Hle; [|reflexivity].
      apply Qle_bool_iff in Hle. exfalso. exact (Qlt_not_le _ _ Hd Hle).
  - split; [discriminate | intros (d & E & _); discriminate].
Qed.

End BinFacts.

Import BinFacts.

(** X13.  [z_layer_min] is the bin edge at the last row of the bin file
    whose electrode distance is positive; when no row has a positive
    electrode distance, or the two columns differ in length, the indexing
    raises. *)
Theorem X13_z_layer_min bins etrd_dist :
  (length bins <> length etrd_dist ->
     z_layer_min bins etrd_dist = Raise IndexError) /\
  (length bins = length etrd_dist ->
     (forall z, z_layer_min bins etrd_dist = Ok z <->
        exists i d, nth_error bins i = Some z /\
          nth_error etrd_dist i = Some d /\ 0 < d /\
          forall j d', (i < j)%nat -> nth_error etrd_dist j = Some d' -> d' <= 0) /\
     (z_layer_min bins etrd_dist = Raise IndexError <->
        forall d, In d etrd_dist -> d <= 0)).
Proof.
  unfold z_layer_min, mask_index. rewrite length_map. split.
  - intros Hne. apply Nat.neq_sym, Nat.eqb_neq in Hne. rewrite Hne. reflexivity.
  - intros Hlen. rewrite <- Hlen, Nat.eqb_refl. cbn [bind].
    set (mask := map (fun d => negb (Qle_bool d 0)) etrd_dist).
    assert (Hmask : length mask = length bins)
      by (unfold mask; rewrite length_map; congruence).
    assert (Hnot : forall j, nth_error mask j <> Some true <->
              forall d', nth_error etrd_dist j = Some d' -> d' <= 0).
    { intros j. unfold mask. rewrite positive_mask_nth. split.
      - intros H d' Hd'. destruct (Qlt_le_dec 0 d') as [Hpos | Hle]; [|exact Hle].
        destruct H. eauto.
      - intros H (d & Hd & Hpos). exact (Qlt_not_le _ _ Hpos (H d Hd)). }
    split.
    + intros z. rewrite (last_entry_compress mask bins z Hmask). split.
      * intros (i & Hm & Hb & Hlast). apply positive_mask_nth in Hm as (d & Hd & Hpos).
        exists i, d. repeat split; auto. intros j d' Hj. apply Hnot, Hlast, Hj.
      * intros (i & d & Hb & Hd & Hpos & Hlast). exists i.
        split; [apply positive_mask_nth; eauto|]. split; [exact Hb|].
        intros j Hj. apply Hnot. intros d'. apply Hlast, Hj.
    + rewrite last_entry_Raise, (compress_nil mask bins Hmask). split.
      * intros (H & _) d Hin. apply In_nth_error in Hin as (j & Hj).
        exact (proj1 (Hnot j) (H j) d Hj).
      * intros H. split; [|reflexivity]. intros j. apply Hnot.
        intros d' Hd'. apply H. eapply nth_error_In. exact Hd'.
Qed.

Module StringFacts.

Local Open Scope string_scope.

Lemma append_assoc (a b c : string) : (a ++ b) ++ c = a ++ (b ++ c).
Proof. induction a as [|x a IH]; simpl; [reflexivity | rewrite IH; reflexivity]. Qed.

Lemma length_append (a b : string) :
  String.length (a ++ b) = (String.length a + String.length b)%nat.
Proof. induction a as [|x a IH]; simpl; [reflexivity | rewrite IH; reflexivity]. Qed.

Lemma append_inj_l (a b c : string) : a ++ b = a ++ c -> b = c.
Proof.
  induction a as [|x a IH]; simpl; intros H; [exact H|].
  injection H as H. auto.
Qed.

(** Two splits of a string at the same place are the same split. *)
Lemma append_inj_length (a a' b b' : string) :
  String.length a = String.length a' -> a ++ b = a' ++ b' -> a = a' /\ b = b'.
Proof.
  revert a'; induction a as [|x a IH]; intros [|x' a'] Hlen H;
    simpl in Hlen; try discriminate.
  - auto.
  - simpl in H. injection H as -> H. injection Hlen as Hlen.
    destruct (IH a' Hlen H) as (-> & ->). auto.
Qed.

Lemma append_inj_r (a a' b : string) : a ++ b = a' ++ b -> a = a'.
Proof.
  intros H. apply (append_inj_length a a' b b); [|exact H].
  apply (f_equal String.length) in H. rewrite !length_append in H. lia.
Qed.

Lemma last_char_append (a : string) c t :
  Files.last_char (a ++ String c t) = Files.last_char (String c t).
Proof.
  induction a as [|x a IH]; [reflexivity|].
  change (String x a ++ String c t) with (String x (a ++ String c t)).
  destruct a; simpl in *; exact IH.
Qed.

Lemma ends_with_sep_append (a : string) c t :
  Files.ends_with_sep (a ++ String c t) = Files.ends_with_sep (String c t).
Proof.
  induction a as [|x a IH]; [reflexivity|].
  change (String x a ++ String c t) with (String x (a ++ String c t)).
  destruct a; simpl in *; exact IH.
Qed.

Lemma str_nat_inj n m : Files.str_nat n = Files.str_nat m -> n = m.
Proof.
  unfold Files.str_nat. intros H. apply DecimalNat.Unsigned.to_uint_inj.
  apply (f_equal NilEmpty.uint_of_string) in H. rewrite !NilEmpty.usu in H.
  congruence.
Qed.

Lemma dir_name_inj i j : Files.dir_name i = Files.dir_name j -> i = j.
Proof.
  unfold Files.dir_name. intros H. apply append_inj_r in H. simpl in H.
  injection H as H. apply str_nat_inj in H. lia.
Qed.

Lemma dir_name_shape i :
  Files.dir_name i <> "" /\ Files.ends_with_sep (Files.dir_name i) = false /\
  Files.starts_with_sep (Files.dir_name i) = false.
Proof.
  unfold Files.dir_name. split; [discriminate|]. split; [|reflexivity].
  apply ends_with_sep_append.
Qed.

End StringFacts.

Import StringFacts.

(** X15.  The directory of a transferred atom is named from the atom's
    index plus one, and different indices give different directories and
    different structure files.  Unless [settings] begins with a slash, the
    structure file lies in the atom's directory. *)
Theorem X15_output_names :
  (forall i j, Files.dir_name i = Files.dir_name j -> i = j) /\
  (forall args i j, Files.outfile_gro args i = Files.outfile_gro args j -> i = j) /\
  (forall args i, Files.starts_with_sep (Files.settings args) = false ->
     Files.outfile_gro args i =
       ((Files.dir_name i ++ "/") ++
        (((((Files.settings args ++ "_out_") ++ Files.system args) ++ "_") ++
          Files.dir_name i) ++ ".gro"))%string).
Proof.
  assert (Hstart : forall args i,
            Files.starts_with_sep
              (((((Files.settings args ++ "_out_") ++ Files.system args) ++ "_") ++
                 Files.dir_name i) ++ ".gro")%string =
            Files.starts_with_sep (Files.settings args)).
  { intros args i. destruct (Files.settings args); reflexivity. }
  assert (Hjoin : forall args i,
            Files.outfile_gro args i =
            let b := (((((Files.settings args ++ "_out_") ++ Files.system args) ++ "_")
                        ++ Files.dir_name i) ++ ".gro")%string in
            if Files.starts_with_sep (Files.settings args) then b
            else ((Files.dir_name i ++ "/") ++ b)%string).
  { intros args i. unfold Files.outfile_gro, Files.os_path_join. rewrite Hstart.
    destruct (dir_name_shape i) as (Hne & Hend & _). rewrite Hend.
    apply String.eqb_neq in Hne. rewrite Hne. reflexivity. }
  split; [exact dir_name_inj|]. split.
  - intros args i j. rewrite !Hjoin. cbv zeta.
    destruct (Files.starts_with_sep (Files.settings args)); intros H.
    + rewrite !append_assoc in H. do 4 apply append_inj_l in H.
      apply append_inj_r in H. apply dir_name_inj, H.
    + assert (Hlen : String.length (Files.dir_name i) = String.length (Files.dir_name j)).
      { apply (f_equal String.length) in H. rewrite !length_append in H. lia. }
      rewrite !append_assoc in H.
      apply (append_inj_length _ _ _ _ Hlen) in H as (H & _).
      apply dir_name_inj, H.
  - intros args i Hs. rewrite Hjoin, Hs. reflexivity.
Qed.

(** X18.  The report file is none of the three input files, whatever
    the command line arguments are. *)
Theorem X18_report_is_no_input args :
  Files.outfile args <> Files.strfile args /\
  Files.outfile args <> Files.topfile args /\
  Files.outfile args <> Files.binfile args.
Proof.
  unfold Files.outfile, Files.strfile, Files.topfile, Files.binfile.
  split; [|split]; intros H.
  - apply (f_equal Files.last_char) in H.
    rewrite (last_char_append _ "_" "transfer_Li.txt.gz") in H.
    rewrite (last_char_append _ "n" "s.gro") in H. discriminate H.
  - apply append_inj_l in H. discriminate H.
  - apply append_inj_l in H. discriminate H.
Qed.

Module TransferFacts.
Import Transfer.

(** An assignment succeeds exactly inside the array; it changes the one
    entry and keeps the others. *)
Lemma assign_Ok atoms : forall i f a,
  nth_error atoms i = Some a ->
  exists atoms', assign atoms i f = Ok atoms' /\
    length atoms' = length atoms /\
    nth_error atoms' i = Some (f a) /\
    forall j, j <> i -> nth_error atoms' j = nth_error atoms j.
Proof.
  induction atoms as [|x atoms IH]; intros [|i] f a Ha; simpl in Ha;
    try discriminate.
  - injection Ha as ->. exists (f a :: atoms). simpl.
    repeat split; auto. intros [|j] Hj; [congruence | reflexivity].
  - destruct (IH i f a Ha) as (atoms' & E & Hlen & Hi & Hother).
    exists (x :: atoms'). simpl. rewrite E. simpl.
    repeat split; auto. intros [|j] Hj; [reflexivity|]. simpl. apply Hother. lia.
Qed.

Lemma assign_Raise atoms : forall i f,
  nth_error atoms i = None -> assign atoms i f = Raise IndexError.
Proof.
  induction atoms as [|x atoms IH]; intros [|i] f Ha; simpl in *;
    try reflexivity; try discriminate.
  rewrite (IH i f Ha). reflexivity.
Qed.

(** The copy with atom [i] moved. *)
Lemma moved_Ok u i p a :
  nth_error u i = Some a ->
  exists u_copy, moved u i p = Ok u_copy /\
    length u_copy = length u /\
    nth_error u_copy i =
      Some (mkAtom (index a) (resid a) (resname a) (name a) p origin) /\
    forall j, j <> i -> nth_error u_copy j = nth_error u j.
Proof.
  intros Ha. unfold moved.
  destruct (assign_Ok u i (with_position p) a Ha) as (u1 & E1 & Hlen1 & Hi1 & Ho1).
  destruct (assign_Ok u1 i (with_velocity origin) _ Hi1) as (u2 & E2 & Hlen2 & Hi2 & Ho2).
  exists u2. rewrite E1. cbn [bind]. split; [exact E2|]. split; [congruence|].
  split; [exact Hi2|]. intros j Hj. rewrite (Ho2 j Hj). apply Ho1, Hj.
Qed.

Lemma in_entries_iff d (l : list string) :
  existsb (String.eqb d) l = true <-> In d l.
Proof.
  rewrite existsb_exists. split.
  - intros (x & Hx & E). apply String.eqb_eq in E. congruence.
  - intros H. exists d. split; [exact H | apply String.eqb_refl].
Qed.

Lemma contains_sep_append (a b : string) :
  Files.contains_sep (a ++ b) = (Files.contains_sep a || Files.contains_sep b)%bool.
Proof.
  induction a as [|c a IH]; simpl; [reflexivity|].
  rewrite IH. apply orb_assoc.
Qed.

Lemma contains_sep_start (s : string) :
  Files.contains_sep s = false -> Files.starts_with_sep s = false.
Proof.
  destruct s as [|c s]; simpl; [reflexivity|].
  intros H. apply orb_false_iff in H. apply H.
Qed.

Lemma string_of_uint_no_sep d :
  Files.contains_sep (NilEmpty.string_of_uint d) = false.
Proof. induction d; simpl; auto. Qed.

Lemma dir_name_no_sep i : Files.contains_sep (Files.dir_name i) = false.
Proof.
  unfold Files.dir_name, Files.str_nat. rewrite !contains_sep_append.
  rewrite string_of_uint_no_sep. reflexivity.
Qed.

Lemma outfile_gro_path args i :
  Files.starts_with_sep (Files.settings args) = false ->
  Files.outfile_gro args i =
    ((Files.dir_name i ++ "/") ++
     (((((Files.settings args ++ "_out_") ++ Files.system args) ++ "_") ++
       Files.dir_name i) ++ ".gro"))%string.
Proof.
  intros Hs. unfold Files.outfile_gro, Files.os_path_join.
  assert (Hb : Files.starts_with_sep
                 (((((Files.settings args ++ "_out_") ++ Files.system args) ++ "_") ++
                    Files.dir_name i) ++ ".gro")%string = false).
  { destruct (Files.settings args); [reflexivity | exact Hs]. }
  rewrite Hb. destruct (dir_name_shape i) as (Hne & Hend & _). rewrite Hend.
  apply String.eqb_neq in Hne. rewrite Hne. reflexivity.
Qed.

(** With no slash in [settings] and [system] the structure file has a
    name without a slash and lies in the directory of the atom. *)
Lemma outfile_gro_in_dir args i :
  Files.contains_sep (Files.settings args) = false ->
  Files.contains_sep (Files.system args) = false ->
  exists f, Files.contains_sep f = false /\
    Files.outfile_gro args i = ((Files.dir_name i ++ "/") ++ f)%string.
Proof.
  intros Hs Hy.
  exists (((((Files.settings args ++ "_out_") ++ Files.system args) ++ "_") ++
            Files.dir_name i) ++ ".gro")%string.
  split.
  - rewrite !contains_sep_append, Hs, Hy, dir_name_no_sep. reflexivity.
  - apply outfile_gro_path, contains_sep_start, Hs.
Qed.

Lemma strip_prefix_append (p f : string) :
  Files.strip_prefix p (p ++ f) = Some f.
Proof.
  induction p as [|c p IH]; simpl; [reflexivity|].
  rewrite Ascii.eqb_refl. exact IH.
Qed.

(** The file system of the examples lets the writer open a file with a
    name without a slash in the directory created last. *)
Lemma open_fresh_spec entries d f :
  Files.contains_sep f = false ->
  TransferExamples.open_fresh (d :: entries) ((d ++ "/") ++ f)%string = true.
Proof.
  intros Hf. unfold TransferExamples.open_fresh.
  rewrite strip_prefix_append, Hf. reflexivity.
Qed.

Section Loop.

Variable can_open : list string -> string -> bool.
Hypothesis can_open_fresh : forall entries d f,
  Files.contains_sep f = false ->
  can_open (d :: entries) ((d ++ "/") ++ f)%string = true.

Variable args : Files.Args.
Hypothesis settings_plain : Files.contains_sep (Files.settings args) = false.
Hypothesis system_plain : Files.contains_sep (Files.system args) = false.

(** One turn of the loop for an atom of the universe whose directory
    does not exist. *)
Lemma transfer_atom_Done u p atm disk :
  (index atm < length u)%nat ->
  ~ In (Files.dir_name (index atm)) (entries disk) ->
  exists u_copy,
    moved u (index atm) p = Ok u_copy /\
    transfer_atom can_open args u p atm disk =
      (mkDisk (Files.dir_name (index atm) :: entries disk)
              ((Files.outfile_gro args (index atm), u_copy) :: written disk), Done).
Proof.
  intros Hi Hdir.
  destruct (nth_error u (index atm)) as [a|] eqn:Ha;
    [|apply nth_error_None in Ha; lia].
  destruct (moved_Ok u (index atm) p a Ha) as (u_copy & E & _).
  exists u_copy. split; [exact E|]. unfold transfer_atom. rewrite E.
  destruct (existsb _ (entries disk)) eqn:Ex;
    [apply in_entries_iff in Ex; contradiction|].
  cbn [entries written].
  destruct (outfile_gro_in_dir args (index atm) settings_plain system_plain)
    as (f & Hf & ->).
  rewrite (can_open_fresh _ _ _ Hf). reflexivity.
Qed.

(** The loop over atoms of the universe with different indices whose
    directories do not exist. *)
Lemma transfer_loop_Done u p sel : forall disk,
  NoDup (map index sel) ->
  (forall atm, In atm sel -> (index atm < length u)%nat) ->
  (forall atm, In atm sel -> ~ In (Files.dir_name (index atm)) (entries disk)) ->
  exists snapshots,
    Forall2 (fun atm u_copy => moved u (index atm) p = Ok u_copy) sel snapshots /\
    transfer_loop can_open args u p sel disk =
      (mkDisk (rev (map (fun atm => Files.dir_name (index atm)) sel) ++ entries disk)
              (rev (combine (map (fun atm => Files.outfile_gro args (index atm)) sel)
                            snapshots) ++ written disk),
       Done).
Proof.
  induction sel as [|atm sel IH]; intros disk Hnd Hin Hdir.
  - exists []. split; [constructor|]. destruct disk. reflexivity.
  - simpl in Hnd. apply NoDup_cons_iff in Hnd as (Hnew & Hnd).
    destruct (transfer_atom_Done u p atm disk) as (u_copy & Hmoved & Hturn).
    { apply Hin. left. reflexivity. }
    { apply Hdir. left. reflexivity. }
    simpl transfer_loop. rewrite Hturn.
    destruct (IH (mkDisk (Files.dir_name (index atm) :: entries disk)
                         ((Files.outfile_gro args (index atm), u_copy) :: written disk)))
      as (snaps & Hsnaps & Hloop).
    + exact Hnd.
    + intros a Ha. apply Hin. right. exact Ha.
    + intros a Ha [E | Hold].
      * apply dir_name_inj in E. apply Hnew. rewrite E. apply in_map, Ha.
      * apply (Hdir a); [right; exact Ha | exact Hold].
    + exists (u_copy :: snaps). split; [constructor; assumption|].
      rewrite Hloop. simpl. rewrite <- !app_assoc. reflexivity.
Qed.

End Loop.

Lemma transfer_loop_app can_open args u p sel1 : forall sel2 disk,
  transfer_loop can_open args u p (sel1 ++ sel2) disk =
  match transfer_loop can_open args u p sel1 disk with
  | (disk', Done) => transfer_loop can_open args u p sel2 disk'
  | stopped => stopped
  end.
Proof.
  induction sel1 as [|atm sel1 IH]; intros sel2 disk; simpl.
  - reflexivity.
  - destruct (transfer_atom can_open args u p atm disk) as (disk' & [| | |]); auto.
Qed.

End TransferFacts.

Import TransferFacts.

(** X14.  The structure written for a transferred atom is the universe
    with this one atom at the insertion point and at rest: the copy has as
    many atoms, every other atom is unchanged, and the atom keeps its
    index, residue and names.  For an index past the end of the universe
    the assignment raises. *)
Theorem X14_moved_atom u i insertion_point :
  ((i < length u)%nat ->
     exists a u_copy,
       nth_error u i = Some a /\
       Transfer.moved u i insertion_point = Ok u_copy /\
       length u_copy = length u /\
       nth_error u_copy i =
         Some (Transfer.mkAtom (Transfer.index a) (Transfer.resid a)
                 (Transfer.resname a) (Transfer.name a) insertion_point origin) /\
       forall j, j <> i -> nth_error u_copy j = nth_error u j) /\
  ((length u <= i)%nat -> Transfer.moved u i insertion_point = Raise IndexError).
Proof.
  split.
  - intros Hi. destruct (nth_error u i) as [a|] eqn:Ha;
      [|apply nth_error_None in Ha; lia].
    destruct (moved_Ok u i insertion_point a Ha) as (u_copy & H).
    exists a, u_copy. split; [reflexivity | exact H].
  - intros Hi. apply nth_error_None in Hi. unfold Transfer.moved.
    rewrite (assign_Raise u i _ Hi). reflexivity.
Qed.

(** X16.  Take a file system in which a file with a name without a
    slash can be opened in a directory that has just been created, and
    arguments [settings] and [system] without a slash.  When the selected
    atoms are atoms of the universe with different indices and none of
    their directories exists, the loop ends normally; it creates one
    directory and writes one structure file for each selected atom, in the
    order of the selection, and each structure is the original universe
    with that one atom moved (the moves do not accumulate). *)
Theorem X16_transfer_all can_open args u insertion_point sel disk :
  (forall entries d f, Files.contains_sep f = false ->
     can_open (d :: entries) ((d ++ "/") ++ f)%string = true) ->
  Files.contains_sep (Files.settings args) = false ->
  Files.contains_sep (Files.system args) = false ->
  NoDup (map Transfer.index sel) ->
  (forall atm, In atm sel -> (Transfer.index atm < length u)%nat) ->
  (forall atm, In atm sel ->
     ~ In (Files.dir_name (Transfer.index atm)) (Transfer.entries disk)) ->
  exists snapshots,
    Forall2 (fun atm u_copy =>
               Transfer.moved u (Transfer.index atm) insertion_point = Ok u_copy)
            sel snapshots /\
    Transfer.transfer_loop can_open args u insertion_point sel disk =
      (Transfer.mkDisk
         (rev (map (fun atm => Files.dir_name (Transfer.index atm)) sel)
            ++ Transfer.entries disk)
         (rev (combine (map (fun atm => Files.outfile_gro args (Transfer.index atm)) sel)
                       snapshots) ++ Transfer.written disk),
       Transfer.Done).
Proof.
  intros Hopen Hs Hy Hnd Hin Hdir. apply transfer_loop_Done; assumption.
Qed.

(** X17.  In such a file system and with such arguments, when the
    directory of a selected atom already exists while the atoms before it
    can be transferred, the loop stops at this atom with the exception of
    [os.mkdir]; the structure files of the atoms before it have been
    written and stay written, and nothing is written for the atoms after
    it. *)
Theorem X17_transfer_stops can_open args u insertion_point before atm after disk :
  (forall entries d f, Files.contains_sep f = false ->
     can_open (d :: entries) ((d ++ "/") ++ f)%string = true) ->
  Files.contains_sep (Files.settings args) = false ->
  Files.contains_sep (Files.system args) = false ->
  NoDup (map Transfer.index before) ->
  (forall a, In a before -> (Transfer.index a < length u)%nat) ->
  (forall a, In a before ->
     ~ In (Files.dir_name (Transfer.index a)) (Transfer.entries disk)) ->
  (Transfer.index atm < length u)%nat ->
  In (Files.dir_name (Transfer.index atm)) (Transfer.entries disk) ->
  exists disk',
    Transfer.transfer_loop can_open args u insertion_point before disk
      = (disk', Transfer.Done) /\
    Transfer.transfer_loop can_open args u insertion_point (before ++ atm :: after) disk
      = (disk', Transfer.FileExistsError (Files.dir_name (Transfer.index atm))) /\
    length (Transfer.written disk') =
      (length before + length (Transfer.written disk))%nat.
Proof.
  intros Hopen Hs Hy Hnd Hin Hdir Hi Hex.
  destruct (transfer_loop_Done can_open Hopen args Hs Hy u insertion_point before disk
              Hnd Hin Hdir) as (snaps & Hsnaps & Hloop).
  eexists. split; [exact Hloop|]. split.
  - rewrite transfer_loop_app, Hloop. simpl Transfer.transfer_loop.
    unfold Transfer.transfer_atom.
    destruct (nth_error u (Transfer.index atm)) as [a|] eqn:Ha;
      [|apply nth_error_None in Ha; lia].
    destruct (moved_Ok u (Transfer.index atm) insertion_point a Ha) as (u_copy & E & _).
    rewrite E. cbn [Transfer.entries].
    assert (Hthere : existsb (String.eqb (Files.dir_name (Transfer.index atm)))
                       (rev (map (fun a0 => Files.dir_name (Transfer.index a0)) before)
                          ++ Transfer.entries disk) = true).
    { apply in_entries_iff, in_or_app. right. exact Hex. }
    rewrite Hthere. reflexivity.
  - cbn [Transfer.written]. rewrite length_app, length_rev, length_combine, length_map.
    rewrite <- (Forall2_length Hsnaps). lia.
Qed.

Lemma X16_transfer_all_witness :
  exists snapshots,
    Forall2 (fun atm u_copy =>
               Transfer.moved TransferExamples.u3 (Transfer.index atm)
                 TransferExamples.target = Ok u_copy)
            [TransferExamples.li0; TransferExamples.li2] snapshots /\
    Transfer.transfer_loop TransferExamples.open_fresh TransferExamples.args1
      TransferExamples.u3 TransferExamples.target
      [TransferExamples.li0; TransferExamples.li2] TransferExamples.empty_disk =
      (Transfer.mkDisk
         (rev (map (fun atm => Files.dir_name (Transfer.index atm))
                   [TransferExamples.li0; TransferExamples.li2])
            ++ Transfer.entries TransferExamples.empty_disk)
         (rev (combine (map (fun atm => Files.outfile_gro TransferExamples.args1
                                          (Transfer.index atm))
                            [TransferExamples.li0; TransferExamples.li2])
                       snapshots) ++ Transfer.written TransferExamples.empty_disk),
       Transfer.Done).
Proof.
  apply (X16_transfer_all TransferExamples.open_fresh TransferExamples.args1
           TransferExamples.u3 TransferExamples.target
           [TransferExamples.li0; TransferExamples.li2] TransferExamples.empty_disk).
  - exact open_fresh_spec.
  - reflexivity.
  - reflexivity.
  - simpl. repeat constructor; simpl; intuition discriminate.
  - intros atm [<- | [<- | []]]; simpl; lia.
  - intros atm _ [].
Defined.

Lemma X17_transfer_stops_witness :
  exists disk',
    Transfer.transfer_loop TransferExamples.open_fresh TransferExamples.args1
      TransferExamples.u3 TransferExamples.target [TransferExamples.li0]
      TransferExamples.used_disk
      = (disk', Transfer.Done) /\
    Transfer.transfer_loop TransferExamples.open_fresh TransferExamples.args1
      TransferExamples.u3 TransferExamples.target
      ([TransferExamples.li0] ++ TransferExamples.li2 :: [])
      TransferExamples.used_disk
      = (disk', Transfer.FileExistsError
                  (Files.dir_name (Transfer.index TransferExamples.li2))) /\
    length (Transfer.written disk') =
      (length [TransferExamples.li0] +
       length (Transfer.written TransferExamples.used_disk))%nat.
Proof.
  apply (X17_transfer_stops TransferExamples.open_fresh TransferExamples.args1
           TransferExamples.u3 TransferExamples.target [TransferExamples.li0]
           TransferExamples.li2 [] TransferExamples.used_disk).
  - exact open_fresh_spec.
  - reflexivity.
  - reflexivity.
  - simpl. repeat constructor; simpl; intuition discriminate.
  - intros a [<- | []]; simpl; lia.
  - intros a [<- | []] [H | []]. vm_compute in H. discriminate H.
  - simpl. lia.
  - left. vm_compute. reflexivity.
Defined.

(** In the file system of the examples a [settings] with a slash stops
    the loop at the first atom: its directory is created, the structure
    file cannot be opened, and nothing is written. *)
Lemma transfer_nested_settings :
  Transfer.transfer_loop TransferExamples.open_fresh TransferExamples.args_nested
    TransferExamples.u3 TransferExamples.target
    [TransferExamples.li0; TransferExamples.li2] TransferExamples.empty_disk =
    (Transfer.mkDisk ["Li1_transferred"%string] [],
     Transfer.OSError
       "Li1_transferred/runs/pr_nvt423_nh_out_lintf2_Li1_transferred.gro").
Proof. vm_compute. reflexivity. Qed.
